(** * s3prl_segperb: the segment scoring head and the VoxCeleb1 speaker corpus

    A shallow embedding of

    - [downstream/vcc2018_linear_segment/model.py]
      ([SelfAttentionPooling], [Model]), and
    - [s3prl/corpus/voxceleb1sid.py] ([VoxCeleb1SID]),

    followed by the properties stated about them.

    Conventions.  Python exceptions are values of [exception] and a call
    that may raise returns a [result].  Python [str] is [string] (ASCII
    fragment), Python [int] is [Z], a [dict] is an insertion-ordered
    association list.  A torch tensor is a shape together with its
    row-major contents; tensor entries are real numbers, so every
    numeric statement below is about exact arithmetic (rounding of
    floating-point numbers is outside the model). *)

From Stdlib Require Import Bool List Arith ZArith NArith Lia.
From Stdlib Require Import Ascii String Decimal DecimalString DecimalPos DecimalN DecimalZ.
From Stdlib Require Import Permutation.
From Stdlib Require Import Reals Lra.
Import ListNotations.

Set Implicit Arguments.

(* ================================================================= *)
(** * Exceptions and results *)

Inductive exception : Type :=
| ValueError
| IndexError
| KeyError
| AssertionError
| RuntimeError.

Inductive result (A : Type) : Type :=
| Ok (a : A)
| Raise (e : exception).

Arguments Ok {A} a.
Arguments Raise {A} e.

Definition bind {A B : Type} (r : result A) (k : A -> result B) : result B :=
  match r with
  | Ok a => k a
  | Raise e => Raise e
  end.

Notation "x <- r ;; k" := (bind r (fun x => k))
  (at level 61, r at next level, right associativity).
Notation "' p <- r ;; k" := (bind r (fun x => let p := x in k))
  (at level 61, p pattern, r at next level, right associativity).

(** Evaluation of a comprehension or of a loop body over a list: the
    elements are processed left to right and the first exception ends
    the evaluation. *)
Fixpoint mapM {A B : Type} (f : A -> result B) (l : list A) : result (list B) :=
  match l with
  | [] => Ok []
  | a :: l' => b <- f a ;; bs <- mapM f l' ;; Ok (b :: bs)
  end.

Definition is_ok {A : Type} (r : result A) : bool :=
  match r with Ok _ => true | Raise _ => false end.

(* ================================================================= *)
(** * The Python built-ins used by the corpus loader *)

(** [str] methods, [int], list indexing and [pathlib] as the language
    reference gives them, on ASCII strings and POSIX paths. *)

Module Py.

Local Open Scope string_scope.
Local Open Scope char_scope.

(** [str.isspace] on ASCII: TAB, LF, VT, FF, CR, the separators
    0x1c..0x1f and the space. *)
Definition isspace (c : ascii) : bool :=
  let n := nat_of_ascii c in
  ((9 <=? n)%nat && (n <=? 13)%nat) || ((28 <=? n)%nat && (n <=? 32)%nat).

Fixpoint lstrip (s : string) : string :=
  match s with
  | EmptyString => EmptyString
  | String c s' => if isspace c then lstrip s' else s
  end.

Fixpoint rstrip (s : string) : string :=
  match s with
  | EmptyString => EmptyString
  | String c s' =>
      match rstrip s' with
      | EmptyString => if isspace c then EmptyString else String c EmptyString
      | r => String c r
      end
  end.

(** [s.strip()] *)
Definition strip (s : string) : string := rstrip (lstrip s).

(** [s.split(sep)] for a one-character separator: every occurrence
    splits, so the result has one more component than [s] has
    separators and is never empty. *)
Fixpoint split (sep : ascii) (s : string) : list string :=
  match s with
  | EmptyString => [EmptyString]
  | String c s' =>
      if Ascii.eqb c sep then EmptyString :: split sep s'
      else match split sep s' with
           | h :: t => String c h :: t
           | [] => [String c EmptyString]
           end
  end.

(** [s.replace(a, b)] for one-character [a] and [b]. *)
Fixpoint replace (a b : ascii) (s : string) : string :=
  match s with
  | EmptyString => EmptyString
  | String c s' => String (if Ascii.eqb c a then b else c) (replace a b s')
  end.

(** [s[n:]] for a non-negative [n]. *)
Fixpoint slice_from (n : nat) (s : string) : string :=
  match n, s with
  | O, _ => s
  | S _, EmptyString => EmptyString
  | S n', String _ s' => slice_from n' s'
  end.

(** [s[:n]] for a non-negative [n]. *)
Fixpoint slice_to (n : nat) (s : string) : string :=
  match n, s with
  | O, _ => EmptyString
  | S _, EmptyString => EmptyString
  | S n', String c s' => String c (slice_to n' s')
  end.

(** [s.rfind(c)]: the index of the last occurrence of [c]. *)
Fixpoint rfind (c : ascii) (s : string) : option nat :=
  match s with
  | EmptyString => None
  | String d s' =>
      match rfind c s' with
      | Some i => Some (S i)
      | None => if Ascii.eqb d c then Some O else None
      end
  end.

(** [l[i]] on a list: a negative index counts from the end, an index
    outside [-len, len) raises [IndexError]. *)
Definition getitem {A : Type} (l : list A) (i : Z) : result A :=
  let n := Z.of_nat (List.length l) in
  let j := if (i <? 0)%Z then (i + n)%Z else i in
  if ((j <? 0) || (n <=? j))%Z then Raise IndexError
  else match nth_error l (Z.to_nat j) with
       | Some a => Ok a
       | None => Raise IndexError
       end.

(** ** [int(s)] *)

Definition digit_of (c : ascii) : option N :=
  let n := N_of_ascii c in
  if ((48 <=? n) && (n <=? 57))%N then Some (n - 48)%N else None.

(** The digits of an integer literal: a non-empty run of decimal
    digits in which single underscores may separate digits.  [prev]
    tells whether the previous character was a digit. *)
Fixpoint int_digits (acc : N) (prev : bool) (s : string) : option N :=
  match s with
  | EmptyString => if prev then Some acc else None
  | String c s' =>
      match digit_of c with
      | Some d => int_digits (10 * acc + d)%N true s'
      | None =>
          if Ascii.eqb c "_" && prev then int_digits acc false s' else None
      end
  end.

(** [int(s)] in base 10: surrounding whitespace is ignored, one sign is
    allowed, anything else raises [ValueError]. *)
Definition int (s : string) : result Z :=
  let t := strip s in
  let '(neg, body) :=
    match t with
    | String "-" r => (true, r)
    | String "+" r => (false, r)
    | _ => (false, t)
    end in
  match int_digits 0 false body with
  | Some n => Ok (if neg then (- Z.of_N n)%Z else Z.of_N n)
  | None => Raise ValueError
  end.

(** [str(z)], also what an f-string prints for an [int]. *)
Definition str (z : Z) : string := NilZero.string_of_int (Z.to_int z).

(** ** [pathlib.PurePosixPath(s).stem] *)

(** The final component of a path that holds no ['/']: the string
    itself, except that ["."] (and the empty string, which pathlib
    reads as ["."]) has an empty name. *)
Definition path_name (s : string) : string :=
  if String.eqb s "." then EmptyString else s.

(** [PurePath.stem]: the name without its last suffix; a leading or a
    trailing dot does not start a suffix. *)
Definition stem_of_name (name : string) : string :=
  match rfind "." name with
  | Some i =>
      if ((0 <? i)%nat && (i <? String.length name - 1)%nat)
      then slice_to i name else name
  | None => name
  end.

End Py.

(* ================================================================= *)
(** * Insertion-ordered dictionaries *)

Module Dict.

Section WithValue.
Context {V : Type}.

Definition t : Type := list (string * V).

Fixpoint get (d : t) (k : string) : option V :=
  match d with
  | [] => None
  | (k', v) :: d' => if String.eqb k' k then Some v else get d' k
  end.

(** [d[k] = v]: an existing key keeps its position. *)
Fixpoint set (d : t) (k : string) (v : V) : t :=
  match d with
  | [] => [(k, v)]
  | (k', v') :: d' =>
      if String.eqb k' k then (k', v) :: d' else (k', v') :: set d' k v
  end.

Definition keys (d : t) : list string := map fst d.

(** [d[k]] *)
Definition getitem (d : t) (k : string) : result V :=
  match get d k with
  | Some v => Ok v
  | None => Raise KeyError
  end.

(** [{k: v for k, v in kvs}] *)
Definition of_items (kvs : list (string * V)) : t :=
  fold_left (fun d kv => set d (fst kv) (snd kv)) kvs [].
End WithValue.

Arguments t V : clear implicits.

End Dict.

(* ================================================================= *)
(** * The torch operations used by the scoring head *)

(** The library is not part of the repository: shapes, values and
    exceptions of the operations below are those that its
    documentation gives ([RuntimeError] for shapes that do not fit,
    [IndexError] for an axis that a tensor does not have). *)

Module Torch.

Local Open Scope R_scope.

(** A tensor: its shape and its entries in row-major order.  A
    well-formed tensor holds as many entries as its shape says. *)
Record tensor : Type := Tensor { shape : list nat; data : list R }.

Definition numel_of (s : list nat) : nat := fold_right Nat.mul 1%nat s.
Definition numel (t : tensor) : nat := numel_of (shape t).
Definition ndim (t : tensor) : nat := List.length (shape t).
Definition wf (t : tensor) : Prop := List.length (data t) = numel t.

Fixpoint zip_with {A B C : Type} (f : A -> B -> C) (l : list A) (m : list B) : list C :=
  match l, m with
  | a :: l', b :: m' => f a b :: zip_with f l' m'
  | _, _ => []
  end.

(** The first [n] consecutive rows of width [h] of a row-major list. *)
Fixpoint chunks (h n : nat) (l : list R) : list (list R) :=
  match n with
  | O => []
  | S n' => firstn h l :: chunks h n' (skipn h l)
  end.

Definition rsum (l : list R) : R := fold_right Rplus 0 l.
Definition dot (w x : list R) : R := rsum (zip_with Rmult w x).

(** Entry-wise sum of the rows of a matrix of width [w]. *)
Definition col_sums (w : nat) (m : list (list R)) : list R :=
  fold_right (zip_with Rplus) (repeat 0 w) m.

(** The decomposition of a shape around axis [dim]: the number of
    outer blocks, the extent of the axis, the size of an inner block. *)
Definition outer_n (dim : nat) (s : list nat) : nat := numel_of (firstn dim s).
Definition axis_n (dim : nat) (s : list nat) : nat := nth dim s 1%nat.
Definition inner_n (dim : nat) (s : list nat) : nat := numel_of (skipn (S dim) s).

(** [f] applied to the [axis x inner] matrix of every outer block. *)
Definition on_blocks (dim : nat) (s : list nat)
    (f : list (list R) -> list R) (d : list R) : list R :=
  List.concat (map (fun block => f (chunks (inner_n dim s) (axis_n dim s) block))
              (chunks (axis_n dim s * inner_n dim s) (outer_n dim s) d)).

(** ** [nn.Linear(in_features, 1)] *)

Record Linear : Type := { weight : list R; bias : R }.

Definition in_features (l : Linear) : nat := List.length (weight l).

(** [F.linear]: the last axis must have [in_features] entries (and
    there must be one); it is replaced by an axis of size 1. *)
Definition linear (l : Linear) (t : tensor) : result tensor :=
  match shape t with
  | [] => Raise RuntimeError
  | _ =>
      let h := last (shape t) 0%nat in
      let lead := removelast (shape t) in
      if (h =? in_features l)%nat then
        Ok (Tensor (lead ++ [1%nat])
              (map (fun row => dot (weight l) row + bias l)
                   (chunks h (numel_of lead) (data t))))
      else Raise RuntimeError
  end.

(** [t.squeeze(-1)]: drops the last axis when its size is 1 and leaves
    every other tensor, also a 0-dimensional one, as it is. *)
Definition squeeze_last (t : tensor) : tensor :=
  match shape t with
  | [] => t
  | _ => if (last (shape t) 0 =? 1)%nat
         then Tensor (removelast (shape t)) (data t) else t
  end.

(** [t.unsqueeze(-1)] *)
Definition unsqueeze_last (t : tensor) : tensor :=
  Tensor (shape t ++ [1%nat]) (data t).

(** ** [softmax] *)

(** Softmax down the columns of a matrix whose rows have width [w]. *)
Definition softmax_cols (w : nat) (m : list (list R)) : list R :=
  let e := map (map exp) m in
  let z := col_sums w e in
  List.concat (map (fun row => zip_with Rdiv row z) e).

(** [softmax(t, dim)]; a 0-dimensional tensor is treated as a vector
    of one entry. *)
Definition softmax (t : tensor) (dim : nat) : result tensor :=
  let s := match shape t with [] => [1%nat] | s => s end in
  if (dim <? List.length s)%nat then
    Ok (Tensor (shape t) (on_blocks dim s (softmax_cols (inner_n dim s)) (data t)))
  else Raise IndexError.

(** [torch.nn.functional._get_softmax_dim]: the axis that [softmax]
    takes when it is called without [dim]. *)
Definition _get_softmax_dim (nd : nat) : nat :=
  if ((nd =? 0) || (nd =? 1) || (nd =? 3))%nat then 0%nat else 1%nat.

Definition softmax_implicit (t : tensor) : result tensor :=
  softmax t (_get_softmax_dim (ndim t)).

(** ** Reductions *)

(** [torch.sum(t, dim=1)] *)
Definition sum_dim1 (t : tensor) : result tensor :=
  match shape t with
  | n :: _ :: rest =>
      Ok (Tensor (n :: rest)
            (on_blocks 1 (shape t) (col_sums (inner_n 1 (shape t))) (data t)))
  | _ => Raise IndexError
  end.

(** The mean of a row.  The quotient of an empty row is [0 / 0]: a NaN
    in floating point, which has no counterpart in [R]; it is not an
    exception. *)
Definition rmean (row : list R) : R := rsum row / INR (List.length row).

(** [t.mean(dim=-1)]; a 0-dimensional tensor is its own mean. *)
Definition mean_last (t : tensor) : tensor :=
  match shape t with
  | [] => t
  | _ =>
      let d := last (shape t) 0%nat in
      let lead := removelast (shape t) in
      Tensor lead (map rmean (chunks d (numel_of lead) (data t)))
  end.

(** ** Entry-wise operations *)

Definition map_data (f : R -> R) (t : tensor) : tensor :=
  Tensor (shape t) (map f (data t)).

(** Broadcasting: shapes are aligned at their last axis, missing
    leading axes count as 1, and two extents are compatible when they
    are equal or one of them is 1. *)
Definition pad_shape (n : nat) (s : list nat) : list nat :=
  repeat 1%nat (n - List.length s) ++ s.

Fixpoint broadcast_shapes (sa sb : list nat) : result (list nat) :=
  match sa, sb with
  | a :: sa', b :: sb' =>
      rest <- broadcast_shapes sa' sb' ;;
      if (a =? b)%nat then Ok (a :: rest)
      else if (a =? 1)%nat then Ok (b :: rest)
      else if (b =? 1)%nat then Ok (a :: rest)
      else Raise RuntimeError
  | _, _ => Ok []
  end.

Fixpoint broadcast_data (f : R -> R -> R) (sa sb : list nat) (da db : list R)
    : list R :=
  match sa, sb with
  | a :: sa', b :: sb' =>
      let ca := chunks (numel_of sa') a da in
      let cb := chunks (numel_of sb') b db in
      if (a =? b)%nat then List.concat (zip_with (broadcast_data f sa' sb') ca cb)
      else if (a =? 1)%nat then List.concat (map (broadcast_data f sa' sb' da) cb)
      else List.concat (map (fun x => broadcast_data f sa' sb' x db) ca)
  | _, _ => zip_with f da db
  end.

(** [a * b] on tensors *)
Definition mul (a b : tensor) : result tensor :=
  let n := Nat.max (ndim a) (ndim b) in
  let sa := pad_shape n (shape a) in
  let sb := pad_shape n (shape b) in
  s <- broadcast_shapes sa sb ;;
  Ok (Tensor s (broadcast_data Rmult sa sb (data a) (data b))).

End Torch.

(* ================================================================= *)
(** * [model.py] *)

Module SelfAttentionPooling.

Import Torch.

(** [self.W = nn.Linear(input_dim, 1)] *)
Record t : Type := { W : Linear }.

(** Line 28: the attention weights, of size (N, T, 1). *)
Definition att_w (self : t) (batch_rep : tensor) : result tensor :=
  logits <- linear (W self) batch_rep ;;
  w <- softmax_implicit (squeeze_last logits) ;;
  Ok (unsqueeze_last w).

Definition forward (self : t) (batch_rep : tensor) : result tensor :=
  w <- att_w self batch_rep ;;
  weighted <- mul batch_rep w ;;
  utter_rep <- sum_dim1 weighted ;;
  Ok utter_rep.

End SelfAttentionPooling.

Module Model.

Import Torch.
Local Open Scope R_scope.

Record t : Type := {
  linear : Linear;
  clipping : bool;
  pooling : option SelfAttentionPooling.t
}.

(** [Model(input_dim, clipping, attention_pooling)] with the given
    parameter values in its layers. *)
Definition __init__ (lin : Linear) (clipping : bool)
    (attention_pooling : option Linear) : t :=
  {| linear := lin;
     clipping := clipping;
     pooling := option_map (fun w => {| SelfAttentionPooling.W := w |})
                           attention_pooling |}.

(** Lines 42-47: the score before clipping. *)
Definition raw_score (self : t) (features : tensor) : result tensor :=
  match pooling self with
  | Some p =>
      x <- SelfAttentionPooling.forward p features ;;
      Torch.linear (linear self) x
  | None =>
      x <- Torch.linear (linear self) features ;;
      Ok (mean_last (squeeze_last x))
  end.

(** Line 50 *)
Definition clip (s : R) : R := tanh s * 2 + 3.

Definition forward (self : t) (features : tensor) : result tensor :=
  segment_score <- raw_score self features ;;
  let segment_score :=
    if clipping self then map_data clip segment_score else segment_score in
  Ok (squeeze_last segment_score).

End Model.

(* ================================================================= *)
(** * [voxceleb1sid.py] *)

Module VoxCeleb1SID.

Local Open Scope string_scope.

(** [sorted(l)] on strings (insertion into a sorted list; there is one
    sorted arrangement of a list under a total order). *)
Fixpoint insert_sorted (x : string) (l : list string) : list string :=
  match l with
  | [] => [x]
  | y :: l' => if String.leb x y then x :: l else y :: insert_sorted x l'
  end.

Definition sorted (l : list string) : list string :=
  fold_right insert_sorted [] l.

(** Lines 65-67 *)
Definition code2split (code : Z) : result string :=
  let splits := ["train"; "valid"; "test"] in
  Py.getitem splits (code - 1).

(** Lines 61-70, from the lines of the split file.  The target
    [split, uid] of the comprehension takes exactly two fields. *)
Definition _get_standard_usage (lines : list string) : result (Dict.t string) :=
  let standard_usage := map (fun line => Py.split " " (Py.strip line)) lines in
  items <- mapM (fun fields =>
                   match fields with
                   | [split; uid] =>
                       code <- Py.int split ;;
                       name <- code2split code ;;
                       Ok (uid, name)
                   | _ => Raise ValueError
                   end) standard_usage ;;
  Ok (Dict.of_items items).

(** Lines 86-90 *)
Definition _build_label (uid : string) : result string :=
  id_string <- Py.getitem (Py.split "/" uid) 0 ;;
  n <- Py.int (Py.slice_from 2 id_string) ;;
  Ok ("speaker_" ++ Py.str (n - 10001)).

(** [Path(uid.replace("/", "-")).stem], the key of a record. *)
Definition record_id (uid : string) : string :=
  Py.stem_of_name (Py.path_name (Py.replace "/" "-" uid)).

(** [d[k].append(x)] on a [defaultdict(list)] *)
Definition append_to (d : Dict.t (list string)) (k x : string)
    : Dict.t (list string) :=
  Dict.set d k (match Dict.get d k with
                | Some l => l ++ [x]
                | None => [x]
                end)%list.

(** [d[k]] on a [defaultdict(list)] *)
Definition lookup_list (d : Dict.t (list string)) (k : string) : list string :=
  match Dict.get d k with
  | Some l => l
  | None => []
  end.

Record entry : Type := { wav_path : string; label : string }.

Record corpus : Type := {
  _split2uids : Dict.t (list string);
  _data : Dict.t entry
}.

Section Files.

(** [dataset_root.glob(pattern)]: the files of the dataset that
    match a pattern. *)
Variable glob : string -> list string.

(** What the cache of [_find_wavs_with_uids] holds for this dataset
    root when the corpus is built: the result stored for a list of
    identifiers, if there is one. *)
Variable store : list string -> option (Dict.t string).

(** Modelled from the spec: the decorator [cache] of
    [s3prl.base.cache], which is not among the sources.  The result
    of the decorated function is kept under its arguments, and a
    later call with the same arguments returns the kept result
    without running the function. *)
Definition cache (func : list string -> result (Dict.t string))
    (uids : list string) : result (Dict.t string) :=
  match store uids with
  | Some kept => Ok kept
  | None => func uids
  end.

(** Lines 75-78 *)
Definition find_wav_with_uid (uid : string) : result (string * string) :=
  let found_wavs := glob ("*/wav/" ++ uid) in
  if (List.length found_wavs =? 1)%nat then
    wav <- Py.getitem found_wavs 0 ;; Ok (uid, wav)
  else Raise AssertionError.

(** Lines 74-84, the function under the decorator.  The jobs are
    independent of each other and every one is awaited; an exception
    of a job is raised by the call. *)
Definition search_wavs (uids : list string) : result (Dict.t string) :=
  uids_with_wavs <- mapM find_wav_with_uid uids ;;
  Ok (Dict.of_items uids_with_wavs).

(** Lines 72-84 *)
Definition _find_wavs_with_uids (uids : list string) : result (Dict.t string) :=
  cache search_wavs uids.

(** Lines 23-40, from the lines of the split file. *)
Definition __init__ (lines : list string) : result corpus :=
  uid2split <- _get_standard_usage lines ;;
  let split2uids :=
    fold_left (fun d kv => append_to d (snd kv) (record_id (fst kv)))
              uid2split [] in
  uid2wavpath <- _find_wavs_with_uids (sorted (Dict.keys uid2split)) ;;
  items <- mapM (fun uid =>
                   wav <- Dict.getitem uid2wavpath uid ;;
                   lab <- _build_label uid ;;
                   Ok (record_id uid, {| wav_path := wav; label := lab |}))
                (Dict.keys uid2split) ;;
  Ok {| _split2uids := split2uids; _data := Dict.of_items items |}.

End Files.

(** Lines 46-52 *)
Definition data_split_ids (self : corpus)
    : list string * list string * list string :=
  (lookup_list (_split2uids self) "train",
   lookup_list (_split2uids self) "valid",
   lookup_list (_split2uids self) "test").

End VoxCeleb1SID.

(* ================================================================= *)
(** * Vocabulary of the statements *)

(** The definitions below are not part of the program: they name the
    inputs and the properties that the statements talk about. *)

Module PyAux.

Local Open Scope string_scope.



(** The decimal numeral of a natural number. *)
Definition numeral (n : N) : string := NilZero.string_of_uint (N.to_uint n).

Fixpoint has_char (c : ascii) (s : string) : bool :=
  match s with
  | EmptyString => false
  | String d s' => Ascii.eqb d c || has_char c s'
  end.

Fixpoint has_space (s : string) : bool :=
  match s with
  | EmptyString => false
  | String c s' => Py.isspace c || has_space s'
  end.

Definition newline : string := String (ascii_of_nat 10) EmptyString.


End PyAux.

Module CorpusAux.

Import VoxCeleb1SID.
Local Open Scope string_scope.

(** [id] is the record id of an identifier that the manifest assigns
    to the split [name]. *)
Definition assigned (uid2split : Dict.t string) (name id : string) : Prop :=
  exists uid, Dict.get uid2split uid = Some name /\ record_id uid = id.

(** Distinct identifiers have distinct record ids. *)
Definition record_id_injective (uids : list string) : Prop :=
  forall u v, In u uids -> In v uids -> record_id u = record_id v -> u = v.

(** Every result that the cache holds is the result of the search in
    the dataset as it is now; so it is for an empty cache, and so it
    stays when the cache is filled by searches in an unchanged
    dataset. *)
Definition cache_sound (glob : string -> list string)
    (store : list string -> option (Dict.t string)) : Prop :=
  forall uids kept, store uids = Some kept -> search_wavs glob uids = Ok kept.

Definition empty_store (uids : list string) : option (Dict.t string) := None.

(** The fields of a line of the split file. *)
Definition fields (line : string) : list string := Py.split " " (Py.strip line).

(** A dataset that holds exactly the two utterances
    [id10001/abc/00001.wav] and [id10001/abc-00001.wav]. *)
Definition two_files (pattern : string) : list string :=
  if String.eqb pattern "*/wav/id10001/abc/00001.wav"
  then ["/data/dev/wav/id10001/abc/00001.wav"]
  else if String.eqb pattern "*/wav/id10001/abc-00001.wav"
  then ["/data/dev/wav/id10001/abc-00001.wav"]
  else [].

Definition two_lines : list string :=
  ["1 id10001/abc/00001.wav" ++ PyAux.newline;
   "2 id10001/abc-00001.wav" ++ PyAux.newline].


(** A dataset with one utterance of each of two speakers, the first
    used for training and the second for testing. *)
Definition small_files (pattern : string) : list string :=
  if String.eqb pattern "*/wav/id10001/abc/00001.wav"
  then ["/data/dev/wav/id10001/abc/00001.wav"]
  else if String.eqb pattern "*/wav/id10050/xyz/00002.wav"
  then ["/data/dev/wav/id10050/xyz/00002.wav"]
  else [].

Definition small_lines : list string :=
  ["1 id10001/abc/00001.wav" ++ PyAux.newline;
   "3 id10050/xyz/00002.wav" ++ PyAux.newline].

End CorpusAux.

Module BatchAux.

Import Torch.
Local Open Scope R_scope.

(** A batch written as its sequences of frames. *)
Definition batch : Type := list (list (list R)).

(** [x] holds [N] sequences of [T] frames of [H] entries. *)
Definition batch_wf (N T H : nat) (x : batch) : Prop :=
  List.length x = N
  /\ Forall (fun seq => List.length seq = T
                        /\ Forall (fun frame => List.length frame = H) seq) x.

(** The tensor of size (N, T, H) that holds [x]. *)
Definition of_batch (N T H : nat) (x : batch) : tensor :=
  Tensor [N; T; H] (List.concat (map (@List.concat R) x)).


(** The layer applied to one frame. *)
Definition logit (l : Linear) (frame : list R) : R :=
  dot (weight l) frame + bias l.

(** Softmax of the logits of one sequence, as the documentation of
    [softmax] writes it. *)
Definition row_softmax (logits : list R) : list R :=
  map (fun v => exp v / rsum (map exp logits)) logits.

Definition scale (c : R) (frame : list R) : list R :=
  map (fun a => a * c) frame.

(** The score of one sequence under mean pooling. *)
Definition mean_score (lin : Linear) (seq : list (list R)) : R :=
  rmean (map (logit lin) seq).

(** The weights and the pooled vector of one sequence under attention
    pooling, and its score. *)
Definition seq_weights (w : Linear) (seq : list (list R)) : list R :=
  row_softmax (map (logit w) seq).

Definition pooled (w : Linear) (H : nat) (seq : list (list R)) : list R :=
  col_sums H (zip_with (fun frame c => scale c frame) seq (seq_weights w seq)).

Definition attention_score (w lin : Linear) (H : nat) (seq : list (list R)) : R :=
  logit lin (pooled w H seq).

(** The layers of a model take frames of [H] entries. *)
Definition model_wf (H : nat) (m : Model.t) : Prop :=
  in_features (Model.linear m) = H
  /\ match Model.pooling m with
     | Some p => in_features (SelfAttentionPooling.W p) = H
     | None => True
     end.



(** The tensor of a given shape with all entries zero. *)
Definition zero_tensor (s : list nat) : tensor := Tensor s (repeat 0 (numel_of s)).

(** A layer with all weights one and bias zero. *)
Definition ones_layer (H : nat) : Linear := {| weight := repeat 1 H; bias := 0 |}.

(** Two models for frames of [H] entries built from [ones_layer]. *)
Definition mean_model (H : nat) (clipping : bool) : Model.t :=
  Model.__init__ (ones_layer H) clipping None.

Definition attention_model (H : nat) (clipping : bool) : Model.t :=
  Model.__init__ (ones_layer H) clipping (Some (ones_layer H)).

End BatchAux.

(* ================================================================= *)
(** * Scores, paths and the rest of the corpus module *)

Module ScoreAux.

Import Torch BatchAux.
Local Open Scope R_scope.

(** The score of one sequence under the pooling policy of a model,
    before clipping. *)
Definition seq_score (m : Model.t) (H : nat) (seq : list (list R)) : R :=
  match Model.pooling m with
  | Some p => attention_score (SelfAttentionPooling.W p) (Model.linear m) H seq
  | None => mean_score (Model.linear m) seq
  end.

(** Line 50, when clipping is enabled. *)
Definition clipped (m : Model.t) (s : R) : R :=
  if Model.clipping m then Model.clip s else s.



End ScoreAux.

(** [pathlib.PurePosixPath] on paths that may hold ['/']. *)
Module PyPath.

Local Open Scope string_scope.

(** The components of a path: empty components and ["."] are dropped
    when a path is parsed. *)
Definition parts (p : string) : list string :=
  filter (fun c => negb (String.eqb c "") && negb (String.eqb c "."))
         (Py.split "/" p).

(** [PurePosixPath(p).name]: the last component, empty for a path
    without components. *)
Definition name (p : string) : string := last (parts p) EmptyString.

(** [PurePosixPath(p).stem] *)
Definition stem (p : string) : string := Py.stem_of_name (name p).

End PyPath.

Module VoxCeleb1.

Import VoxCeleb1SID.
Local Open Scope string_scope.

(** Lines 42-44 *)
Definition all_data (self : corpus) : Dict.t entry := _data self.

Section MiniVoxCeleb1.

(** [Path.resolve]: the absolute path of a file. *)
Variable resolve : string -> string.

(** Lines 235-243, for the list of audio files that [find_files]
    returns for a split.  [split] never returns an empty list, so the
    index 0 is always there. *)
Definition prepare_datadict (files : list string) : Dict.t entry :=
  fold_left
    (fun data file =>
       Dict.set data (PyPath.stem file)
         {| wav_path := resolve file;
            label := hd EmptyString (Py.split "-" (PyPath.name file)) |})
    files [].

End MiniVoxCeleb1.

End VoxCeleb1.

Module CorpusAux2.

Import VoxCeleb1SID PyAux.
Local Open Scope string_scope.

(** Strings made of whitespace only. *)
Fixpoint all_space (s : string) : bool :=
  match s with
  | EmptyString => true
  | String c s' => Py.isspace c && all_space s'
  end.

(** The speaker part of an identifier: the first component of its
    path without the two leading characters. *)
Definition speaker_digits (uid : string) : string :=
  Py.slice_from 2 (hd EmptyString (Py.split "/" uid)).

(** The entry that lines 34-40 build for an identifier, from the paths
    that the search returned. *)
Definition record_of (uid2wavpath : Dict.t string) (uid : string)
    : result (string * entry) :=
  wav <- Dict.getitem uid2wavpath uid ;;
  lab <- _build_label uid ;;
  Ok (record_id uid, {| wav_path := wav; label := lab |}).

(** Identifiers of the form [<speaker>/<video>/<utterance>.wav] in
    which the speaker and the utterance hold no ['-'], as in the split
    file of VoxCeleb1 ([id10001/1zcIwhmdeo4/00001.wav]). *)
Definition voxceleb_uid (uid : string) : Prop :=
  exists spk vid utt,
    uid = spk ++ "/" ++ vid ++ "/" ++ utt ++ ".wav"
    /\ has_char "/" spk = false /\ has_char "-" spk = false
    /\ has_char "/" vid = false
    /\ has_char "/" utt = false /\ has_char "-" utt = false.

End CorpusAux2.

(** [os.path] on POSIX paths. *)
Module OsPath.

Local Open Scope string_scope.

(** [s.startswith("/")] *)
Definition starts_with_sep (s : string) : bool :=
  match s with
  | String c _ => Ascii.eqb c "/"
  | EmptyString => false
  end.

(** [s.endswith("/")] *)
Fixpoint ends_with_sep (s : string) : bool :=
  match s with
  | EmptyString => false
  | String c EmptyString => Ascii.eqb c "/"
  | String _ s' => ends_with_sep s'
  end.

(** [os.path.join(a, b)] *)
Definition join (a b : string) : string :=
  if starts_with_sep b then b
  else if String.eqb a "" || ends_with_sep a then a ++ b
  else a ++ "/" ++ b.

End OsPath.

(** The paths of [download_dataset], lines 92-165. *)
Module Download.

Local Open Scope string_scope.

(** Line 111: the name under which [download_from_url] saves a URL. *)
Definition filename_of_url (url : string) : string :=
  Py.replace " " "_" (last (Py.split "/" url) EmptyString).

(** Line 112, which is also the value that [download_from_url]
    returns. *)
Definition filepath_of_url (tgt_dir url : string) : string :=
  OsPath.join tgt_dir (filename_of_url url).

(** Lines 133-138 of [download_dev]: the path whose existence is
    tested for a part, and the URL from which the part is fetched when
    it is not there. *)
Definition dev_part_path (tgt_dir part : string) : string :=
  OsPath.join tgt_dir ("vox1_dev_wav_parta" ++ part).

Definition dev_part_url (part : string) : string :=
  "https://thor.robots.ox.ac.uk/~vgg/data/voxceleb/vox1a/vox1_dev_wav_parta"
  ++ part.

End Download.

(** Files of a split directory of mini-VoxCeleb1, with an identity
    [resolve]. *)
Module MiniAux.

Import VoxCeleb1SID.
Local Open Scope string_scope.

Definition entry_of (resolve : string -> string) (file : string) : entry :=
  {| wav_path := resolve file;
     label := hd EmptyString (Py.split "-" (PyPath.name file)) |}.

Definition same_path (p : string) : string := p.

Definition train_files : list string :=
  ["/data/mini/train/id10001-abc-00001.wav";
   "/data/mini/train/old/id10001-abc-00001.flac";
   "/data/mini/train/id10050-xyz-00002.wav"].

End MiniAux.

(* ================================================================= *)
(** * Facts about the Python built-ins *)

Module PyFacts.

Import Py PyAux.
Local Open Scope string_scope.

Lemma append_empty_r (s : string) : s ++ "" = s.
Proof. induction s as [|c s IH]; simpl; [reflexivity | now rewrite IH]. Qed.

Lemma append_assoc (a b c : string) : (a ++ b) ++ c = a ++ (b ++ c).
Proof. induction a as [|x a IH]; simpl; [reflexivity | now rewrite IH]. Qed.


Lemma digit_not_sep (c : ascii) (d : N) :
  digit_of c = Some d ->
  Ascii.eqb c "/" = false /\ Ascii.eqb c "-" = false /\
  Ascii.eqb c "+" = false /\ Ascii.eqb c "_" = false.
Proof.
  destruct c as [[|] [|] [|] [|] [|] [|] [|] [|]]; vm_compute;
    intuition congruence.
Qed.










Lemma to_uint_nonnil (n : N) : N.to_uint n <> Nil.
Proof.
  destruct n as [|p]; simpl; [discriminate|].
  apply DecimalPos.Unsigned.to_uint_nonnil.
Qed.

Lemma str_of_N (n : N) : str (Z.of_N n) = numeral n.
Proof. destruct n; reflexivity. Qed.




(** ** [split] *)

Lemma split_nonempty (sep : ascii) (s : string) : split sep s <> [].
Proof.
  induction s as [|c s IH]; simpl; [discriminate|].
  destruct (Ascii.eqb c sep); [discriminate|].
  destruct (split sep s); [contradiction | discriminate].
Qed.

Lemma split_app (sep : ascii) (a tail : string) :
  has_char sep a = false ->
  split sep (a ++ tail)
  = (a ++ hd EmptyString (split sep tail)) :: tl (split sep tail).
Proof.
  induction a as [|c a IH]; simpl; intros H.
  - destruct (split sep tail) eqn:E; [now destruct (split_nonempty sep tail)|].
    reflexivity.
  - apply orb_false_iff in H as [Hc Ha].
    rewrite Hc, (IH Ha). reflexivity.
Qed.


Lemma getitem_0 {A : Type} (a : A) (l : list A) : getitem (a :: l) 0 = Ok a.
Proof.
  unfold getitem. cbn [Z.ltb Z.compare List.length].
  replace (Z.of_nat (S (List.length l)) <=? 0)%Z with false
    by (symmetry; apply Z.leb_gt; lia).
  reflexivity.
Qed.

End PyFacts.

(* ================================================================= *)
(** * Facts about results and dictionaries *)

Section MapM.
Context {A B : Type}.
Variable f : A -> result B.

Lemma mapM_ok_inv (l : list A) (bs : list B) :
  mapM f l = Ok bs -> Forall2 (fun a b => f a = Ok b) l bs.
Proof.
  revert bs. induction l as [|a l IH]; simpl; intros bs H.
  - injection H as <-. constructor.
  - destruct (f a) as [b|e] eqn:Ea; simpl in H; [|discriminate].
    destruct (mapM f l) as [bs'|e] eqn:El; simpl in H; [|discriminate].
    injection H as <-. constructor; auto.
Qed.

Lemma mapM_ok_all (l : list A) (bs : list B) :
  mapM f l = Ok bs -> forall a, In a l -> exists b, f a = Ok b /\ In b bs.
Proof.
  intros H. apply mapM_ok_inv in H.
  induction H as [|a b l bs Hab _ IH]; intros x Hx; [contradiction|].
  destruct Hx as [->|Hx].
  - exists b. split; [assumption | now left].
  - destruct (IH x Hx) as (y & Hy & Hin). exists y. split; [assumption | now right].
Qed.

End MapM.

Module DictFacts.

Import Dict.

Section WithValue.
Context {V : Type}.
Implicit Types (d : Dict.t V) (k : string) (v : V).

Lemma get_set_same d k v : get (set d k v) k = Some v.
Proof.
  induction d as [|[k' v'] d IH]; simpl.
  - now rewrite String.eqb_refl.
  - destruct (String.eqb k' k) eqn:E; simpl; rewrite E; auto.
Qed.

Lemma get_set_other d k k' v : k <> k' -> get (set d k v) k' = get d k'.
Proof.
  intros Hne. induction d as [|[k0 v0] d IH]; simpl.
  - destruct (String.eqb_spec k k'); [contradiction | reflexivity].
  - destruct (String.eqb_spec k0 k) as [->|Hk]; simpl.
    + destruct (String.eqb_spec k k'); [contradiction | reflexivity].
    + now rewrite IH.
Qed.

Lemma in_keys_set d k v k' :
  In k' (keys (set d k v)) <-> k' = k \/ In k' (keys d).
Proof.
  unfold keys. induction d as [|[k0 v0] d IH]; simpl.
  - intuition.
  - destruct (String.eqb_spec k0 k) as [->|Hk]; simpl.
    + intuition.
    + rewrite IH. intuition.
Qed.

Lemma nodup_keys_set d k v : NoDup (keys d) -> NoDup (keys (set d k v)).
Proof.
  unfold keys. induction d as [|[k0 v0] d IH]; simpl; intros H.
  - repeat constructor. intros [].
  - inversion H as [|? ? Hnot Hd]; subst.
    destruct (String.eqb_spec k0 k) as [->|Hk]; simpl.
    + constructor; assumption.
    + constructor; [|now apply IH].
      intros Hin. apply (in_keys_set d k v k0) in Hin.
      destruct Hin as [->|Hin]; [congruence | contradiction].
Qed.

Lemma get_in d k v : get d k = Some v -> In (k, v) d.
Proof.
  induction d as [|[k0 v0] d IH]; simpl; [discriminate|].
  destruct (String.eqb_spec k0 k) as [->|Hk].
  - intros [= ->]. now left.
  - intros H. right. now apply IH.
Qed.

Lemma in_get d k v : NoDup (keys d) -> In (k, v) d -> get d k = Some v.
Proof.
  unfold keys. induction d as [|[k0 v0] d IH]; simpl; [contradiction|].
  intros Hnd [[= -> ->]|Hin].
  - now rewrite String.eqb_refl.
  - inversion Hnd as [|? ? Hnot Hd]; subst.
    destruct (String.eqb_spec k0 k) as [->|Hk]; [|now apply IH].
    exfalso. apply Hnot. change k with (fst (k, v)). now apply in_map.
Qed.

Lemma in_keys_get d k : In k (keys d) <-> exists v, get d k = Some v.
Proof.
  unfold keys. induction d as [|[k0 v0] d IH]; simpl.
  - split; [contradiction | intros [v H]; discriminate].
  - destruct (String.eqb_spec k0 k) as [->|Hk].
    + split; [intros _; now exists v0 | now left].
    + rewrite <- IH. intuition.
Qed.

(** The effect of the comprehension [{k: v for k, v in kvs}],
    started from a dictionary [d]. *)
Lemma fold_set_keys (kvs : list (string * V)) d k :
  In k (keys (fold_left (fun d kv => set d (fst kv) (snd kv)) kvs d))
  <-> In k (keys d) \/ In k (map fst kvs).
Proof.
  revert d. induction kvs as [|[k0 v0] kvs IH]; intros d; simpl.
  - intuition.
  - rewrite IH, in_keys_set. intuition.
Qed.

Lemma fold_set_nodup (kvs : list (string * V)) d :
  NoDup (keys d) ->
  NoDup (keys (fold_left (fun d kv => set d (fst kv) (snd kv)) kvs d)).
Proof.
  revert d. induction kvs as [|[k0 v0] kvs IH]; intros d H; simpl.
  - assumption.
  - apply IH. now apply nodup_keys_set.
Qed.

Lemma fold_set_get (kvs : list (string * V)) d k v :
  get (fold_left (fun d kv => set d (fst kv) (snd kv)) kvs d) k = Some v ->
  get d k = Some v \/ In (k, v) kvs.
Proof.
  revert d. induction kvs as [|[k0 v0] kvs IH]; intros d; simpl.
  - now left.
  - intros H. apply IH in H. destruct H as [H|H]; [|now right; right].
    destruct (String.eqb_spec k0 k) as [->|Hk].
    + rewrite get_set_same in H. injection H as ->. right. now left.
    + rewrite get_set_other in H by assumption. now left.
Qed.

Lemma of_items_keys (kvs : list (string * V)) k :
  In k (keys (of_items kvs)) <-> In k (map fst kvs).
Proof. unfold of_items. rewrite fold_set_keys. simpl. intuition. Qed.

Lemma of_items_nodup (kvs : list (string * V)) : NoDup (keys (of_items kvs)).
Proof. apply fold_set_nodup. constructor. Qed.

Lemma of_items_get (kvs : list (string * V)) k v :
  get (of_items kvs) k = Some v -> In (k, v) kvs.
Proof.
  intros H. apply fold_set_get in H. destruct H as [H|H]; [discriminate | assumption].
Qed.
End WithValue.

End DictFacts.

(* ================================================================= *)
(** * The corpus loader *)

Module CorpusFacts.

Import Py PyAux PyFacts VoxCeleb1SID CorpusAux.
Local Open Scope string_scope.

(** ** Labels *)


(** ** Split codes *)

Lemma code2split_cases (code : Z) :
  code2split code =
  if ((code =? 1) || (code =? -2))%Z then Ok "train"
  else if ((code =? 2) || (code =? -1))%Z then Ok "valid"
  else if ((code =? 3) || (code =? 0))%Z then Ok "test"
  else Raise IndexError.
Proof.
  assert (C : (code <= -3 \/ code = -2 \/ code = -1 \/ code = 0 \/ code = 1
               \/ code = 2 \/ code = 3 \/ 4 <= code)%Z) by lia.
  destruct C as [C|[C|[C|[C|[C|[C|[C|C]]]]]]]; try (subst code; reflexivity).
  - repeat match goal with
           | |- context [(code =? ?c)%Z] =>
               replace (code =? c)%Z with false by (symmetry; apply Z.eqb_neq; lia)
           end.
    unfold code2split, getitem. cbn [List.length Z.of_nat Pos.of_succ_nat Pos.succ orb].
    replace (code - 1 <? 0)%Z with true by (symmetry; apply Z.ltb_lt; lia).
    replace (code - 1 + 3 <? 0)%Z with true by (symmetry; apply Z.ltb_lt; lia).
    reflexivity.
  - repeat match goal with
           | |- context [(code =? ?c)%Z] =>
               replace (code =? c)%Z with false by (symmetry; apply Z.eqb_neq; lia)
           end.
    unfold code2split, getitem. cbn [List.length Z.of_nat Pos.of_succ_nat Pos.succ orb].
    replace (code - 1 <? 0)%Z with false by (symmetry; apply Z.ltb_ge; lia).
    replace (code - 1 <? 0)%Z with false by (symmetry; apply Z.ltb_ge; lia).
    replace (3 <=? code - 1)%Z with true by (symmetry; apply Z.leb_le; lia).
    reflexivity.
Qed.

Lemma code2split_names (code : Z) (name : string) :
  code2split code = Ok name -> name = "train" \/ name = "valid" \/ name = "test".
Proof.
  rewrite code2split_cases.
  repeat match goal with
         | |- context [if ?b then _ else _] => destruct b
         end; intros [= <-]; auto.
Qed.

(** ** Lines of the split file *)

Lemma rstrip_no_space (s : string) : has_space s = false -> rstrip s = s.
Proof.
  induction s as [|c s IH]; simpl; [reflexivity|].
  intros H. apply orb_false_iff in H as [Hc Hs].
  rewrite (IH Hs), Hc. now destruct s.
Qed.

Lemma rstrip_app_newline (s : string) :
  has_space s = false -> rstrip (s ++ newline) = s.
Proof.
  induction s as [|c s IH]; simpl; [reflexivity|].
  intros H. apply orb_false_iff in H as [Hc Hs].
  rewrite (IH Hs), Hc. now destruct s.
Qed.

Lemma has_space_has_char (s : string) :
  has_space s = false -> has_char " " s = false.
Proof.
  induction s as [|c s IH]; simpl; [reflexivity|].
  intros H. apply orb_false_iff in H as [Hc Hs]. rewrite (IH Hs), orb_false_r.
  destruct (Ascii.eqb_spec c " "); [subst c; discriminate | reflexivity].
Qed.

Lemma rstrip_app (s t : string) :
  rstrip t <> "" -> rstrip (s ++ t) = s ++ rstrip t.
Proof.
  intros Ht. induction s as [|c s IH]; simpl; [reflexivity|].
  rewrite IH. destruct (s ++ rstrip t) eqn:E; [|reflexivity].
  destruct s; simpl in E; [contradiction | discriminate].
Qed.

(** A line [<code> <uid>] of the split file is read as its two fields. *)
Lemma fields_of_line (code uid : string) :
  code <> "" -> uid <> "" ->
  has_space code = false -> has_space uid = false ->
  split " " (strip (code ++ " " ++ uid ++ newline)) = [code; uid].
Proof.
  intros Hc Hu Sc Su. unfold strip.
  assert (L : lstrip (code ++ " " ++ uid ++ newline) = code ++ " " ++ uid ++ newline).
  { destruct code as [|c code]; [congruence|].
    simpl in Sc. apply orb_false_iff in Sc as [Sc _]. simpl. now rewrite Sc. }
  rewrite L.
  assert (R : rstrip (code ++ " " ++ uid ++ newline) = code ++ " " ++ uid).
  { rewrite rstrip_app; cbn [append rstrip]; rewrite (rstrip_app_newline _ Su);
      destruct uid; congruence. }
  rewrite R, (split_app _ _ _ (has_space_has_char _ Sc)).
  cbn [append split Ascii.eqb Bool.eqb hd tl].
  replace uid with (uid ++ "") at 1 by apply append_empty_r.
  rewrite (split_app _ _ _ (has_space_has_char _ Su)). cbn [split hd tl].
  now rewrite !append_empty_r.
Qed.

(** ** Sorting *)

Lemma insert_sorted_in (x y : string) (l : list string) :
  In y (insert_sorted x l) <-> y = x \/ In y l.
Proof.
  induction l as [|z l IH]; simpl.
  - intuition.
  - destruct (String.leb x z); simpl; [|rewrite IH]; intuition.
Qed.

Lemma sorted_in (x : string) (l : list string) : In x (sorted l) <-> In x l.
Proof.
  induction l as [|y l IH]; simpl; [reflexivity|].
  rewrite insert_sorted_in, IH. intuition.
Qed.

(** ** The split lists *)

Lemma lookup_append_to (d : Dict.t (list string)) (k x k' : string) :
  lookup_list (append_to d k x) k'
  = (lookup_list d k' ++ if String.eqb k k' then [x] else [])%list.
Proof.
  unfold lookup_list, append_to.
  destruct (String.eqb_spec k k') as [->|Hne].
  - rewrite DictFacts.get_set_same. now destruct (Dict.get d k').
  - rewrite DictFacts.get_set_other by assumption. now rewrite app_nil_r.
Qed.

(** The list kept for a split holds the record ids of the identifiers
    assigned to that split, in the order of the dictionary. *)
Lemma lookup_split2uids (items : list (string * string))
    (d : Dict.t (list string)) (name : string) :
  lookup_list
    (fold_left (fun d kv => append_to d (snd kv) (record_id (fst kv))) items d)
    name
  = (lookup_list d name
     ++ map (fun kv => record_id (fst kv))
            (filter (fun kv => String.eqb (snd kv) name) items))%list.
Proof.
  revert d. induction items as [|[uid s] items IH]; intros d; simpl.
  - now rewrite app_nil_r.
  - rewrite IH, lookup_append_to.
    destruct (String.eqb s name); simpl; now rewrite <- app_assoc.
Qed.

Lemma in_split_list (uid2split : Dict.t string) (name id : string) :
  NoDup (Dict.keys uid2split) ->
  In id (map (fun kv => record_id (fst kv))
             (filter (fun kv => String.eqb (snd kv) name) uid2split))
  <-> exists uid, Dict.get uid2split uid = Some name /\ record_id uid = id.
Proof.
  intros Hnd. rewrite in_map_iff. split.
  - intros ([uid s] & <- & Hin). apply filter_In in Hin as [Hin Hs].
    simpl in Hs. apply String.eqb_eq in Hs. subst s.
    exists uid. split; [now apply DictFacts.in_get | reflexivity].
  - intros (uid & Hget & <-). exists (uid, name). split; [reflexivity|].
    apply filter_In. split; [now apply DictFacts.get_in | apply String.eqb_refl].
Qed.

End CorpusFacts.

Module CorpusClaims.

Import Py PyAux PyFacts VoxCeleb1SID CorpusAux CorpusFacts.
Local Open Scope string_scope.

(** ** What [_get_standard_usage] returns *)

Lemma standard_usage_sound (lines : list string) (uid2split : Dict.t string) :
  _get_standard_usage lines = Ok uid2split ->
  NoDup (Dict.keys uid2split)
  /\ (forall uid,
        In uid (Dict.keys uid2split)
        <-> exists line s, In line lines /\ fields line = [s; uid])
  /\ (forall uid name,
        Dict.get uid2split uid = Some name ->
        exists line s code,
          In line lines /\ fields line = [s; uid]
          /\ int s = Ok code /\ code2split code = Ok name).
Proof.
  unfold _get_standard_usage.
  set (step := fun fs : list string => _).
  destruct (mapM step (map _ lines)) as [items|e] eqn:E; simpl; [|discriminate].
  intros [= <-].
  pose proof (mapM_ok_inv _ _ E) as F.
  assert (G : forall uid name, In (uid, name) items ->
              exists line s code, In line lines /\ fields line = [s; uid]
                /\ int s = Ok code /\ code2split code = Ok name).
  { clear E. remember (map _ lines) as fs eqn:Efs.
    revert lines Efs. induction F as [|f it fs items Hf _ IH]; intros lines Efs.
    - intros uid name [].
    - destruct lines as [|line lines]; [discriminate|].
      simpl in Efs. injection Efs as -> ->.
      intros uid name [Heq|Hin].
      + subst it. unfold step in Hf.
        destruct (split " " (strip line)) as [|s [|u [|? ?]]] eqn:El;
          try discriminate.
        destruct (int s) as [code|] eqn:Ei; simpl in Hf; [|discriminate].
        destruct (code2split code) as [nm|] eqn:Ec; simpl in Hf; [|discriminate].
        injection Hf as -> ->. exists line, s, code.
        repeat split; auto. now left.
      + destruct (IH lines eq_refl uid name Hin) as (l & s & c & Hl & R).
        exists l, s, c. split; [now right | exact R]. }
  split; [apply DictFacts.of_items_nodup|]. split.
  - intros uid. rewrite DictFacts.of_items_keys, in_map_iff. split.
    + intros ([u name] & <- & Hin). destruct (G _ _ Hin) as (l & s & c & Hl & Hf & _).
      now exists l, s.
    + intros (line & s & Hl & Hf).
      assert (Hin : In (fields line) (map (fun line => split " " (strip line)) lines))
        by (apply in_map_iff; now exists line).
      destruct (mapM_ok_all _ _ E _ Hin) as ([u name] & Hb & Hitem).
      unfold step in Hb. rewrite Hf in Hb.
      destruct (int s) as [code|]; simpl in Hb; [|discriminate].
      destruct (code2split code) as [nm|]; simpl in Hb; [|discriminate].
      injection Hb as <- <-. now exists (uid, nm).
  - intros uid name Hget. apply G. now apply DictFacts.of_items_get.
Qed.

Lemma assigned_disjoint (uid2split : Dict.t string) (n1 n2 id : string) :
  record_id_injective (Dict.keys uid2split) ->
  n1 <> n2 ->
  ~ (assigned uid2split n1 id /\ assigned uid2split n2 id).
Proof.
  intros Hinj Hne [(u & Hu & Eu) (v & Hv & Ev)].
  assert (E : u = v)
    by (apply Hinj; try (apply DictFacts.in_keys_get; eauto); congruence).
  subst v. congruence.
Qed.

(** ** The constructor *)

Lemma init_ok_inv (glob : string -> list string)
    (store : list string -> option (Dict.t string))
    (lines : list string) (c : corpus) :
  __init__ glob store lines = Ok c ->
  exists uid2split,
    _get_standard_usage lines = Ok uid2split
    /\ is_ok (_find_wavs_with_uids glob store (sorted (Dict.keys uid2split))) = true
    /\ forall name,
         lookup_list (_split2uids c) name
         = map (fun kv => record_id (fst kv))
               (filter (fun kv => String.eqb (snd kv) name) uid2split).
Proof.
  unfold __init__.
  destruct (_get_standard_usage lines) as [uid2split|] eqn:E; simpl; [|discriminate].
  destruct (_find_wavs_with_uids glob store _) as [m|] eqn:F; simpl; [|discriminate].
  destruct (mapM _ (Dict.keys uid2split)) as [items|]; simpl; [|discriminate].
  intros [= <-]. exists uid2split.
  split; [reflexivity|]. split; [now rewrite F|].
  intros name. cbn [_split2uids]. now rewrite lookup_split2uids.
Qed.

Lemma find_wav_raises (glob : string -> list string) (uid : string) (e : exception) :
  find_wav_with_uid glob uid = Raise e -> e = AssertionError.
Proof.
  unfold find_wav_with_uid.
  destruct (glob _) as [|w [|w' l]]; simpl; congruence.
Qed.

Lemma find_wav_ok (glob : string -> list string) (uid : string) :
  is_ok (find_wav_with_uid glob uid) = true <-> exists wav, glob ("*/wav/" ++ uid) = [wav].
Proof.
  unfold find_wav_with_uid.
  destruct (glob _) as [|w [|w' l]]; simpl; split;
    try discriminate; try (intros [? ?]; discriminate); eauto.
Qed.



(** A cache that holds results of the search in the present dataset
    does not change what the decorated function returns. *)
Lemma cache_transparent (glob : string -> list string)
    (store : list string -> option (Dict.t string)) (uids : list string) :
  cache_sound glob store ->
  _find_wavs_with_uids glob store uids = search_wavs glob uids.
Proof.
  intros Hs. unfold _find_wavs_with_uids, cache.
  destruct (store uids) as [kept|] eqn:E; [|reflexivity].
  symmetry. now apply Hs.
Qed.

Lemma empty_store_sound (glob : string -> list string) :
  cache_sound glob empty_store.
Proof. intros uids kept. discriminate. Qed.

(* ----------------------------------------------------------------- *)
(** ** Claims *)



(** C4, as the code has it.  After a successful construction the
    train, valid and test lists hold record ids (the identifier with
    ['/'] replaced by ['-'] and the suffix removed): each list holds
    exactly the record ids of the identifiers that the manifest assigns
    to its split, every identifier of the manifest has its record id
    in one of the lists, and the lists are pairwise disjoint when
    distinct identifiers of the manifest have distinct record ids. *)
Theorem split_ids_partition (glob : string -> list string)
    (store : list string -> option (Dict.t string))
    (lines : list string) (c : corpus) :
  __init__ glob store lines = Ok c ->
  exists uid2split,
    _get_standard_usage lines = Ok uid2split
    /\ (forall uid name, Dict.get uid2split uid = Some name ->
          name = "train" \/ name = "valid" \/ name = "test")
    /\ let '(train, valid, test) := data_split_ids c in
       (forall id, In id train <-> assigned uid2split "train" id)
       /\ (forall id, In id valid <-> assigned uid2split "valid" id)
       /\ (forall id, In id test <-> assigned uid2split "test" id)
       /\ (forall id, In id (train ++ valid ++ test)%list
                      <-> exists uid, In uid (Dict.keys uid2split)
                                      /\ record_id uid = id)
       /\ (record_id_injective (Dict.keys uid2split) ->
           forall id, ~ (In id train /\ In id valid)
                      /\ ~ (In id train /\ In id test)
                      /\ ~ (In id valid /\ In id test)).
Proof.
  intros H. destruct (init_ok_inv _ _ _ H) as (uid2split & Hu & _ & Hl).
  exists uid2split. split; [assumption|].
  destruct (standard_usage_sound _ Hu) as (Hnd & _ & Hsrc).
  assert (Hnames : forall uid name, Dict.get uid2split uid = Some name ->
                   name = "train" \/ name = "valid" \/ name = "test").
  { intros uid name Hg. destruct (Hsrc _ _ Hg) as (_ & _ & code & _ & _ & _ & Hc).
    exact (code2split_names _ Hc). }
  split; [assumption|].
  unfold data_split_ids. rewrite !Hl.
  assert (M : forall name id,
             In id (map (fun kv => record_id (fst kv))
                        (filter (fun kv => String.eqb (snd kv) name) uid2split))
             <-> assigned uid2split name id)
    by (intros; now apply in_split_list).
  split; [apply M|]. split; [apply M|]. split; [apply M|]. split.
  - intros id. rewrite !in_app_iff, !M. split.
    + intros [A|[A|A]]; destruct A as (uid & Hg & Hid);
        exists uid; (split; [apply DictFacts.in_keys_get; eauto | assumption]).
    + intros (uid & Hk & Hid).
      apply DictFacts.in_keys_get in Hk as [name Hg].
      destruct (Hnames _ _ Hg) as [->|[->| ->]]; [left | right; left | right; right];
        now exists uid.
  - intros Hinj id. rewrite !M.
    repeat split; apply (assigned_disjoint Hinj); discriminate.
Qed.

Lemma split_ids_partition_witness :
  exists c,
    __init__ small_files empty_store small_lines = Ok c
    /\ data_split_ids c = (["id10001-abc-00001"], [], ["id10050-xyz-00002"])
    /\ forall id, ~ (In id (fst (fst (data_split_ids c)))
                     /\ In id (snd (data_split_ids c))).
Proof.
  eexists. split; [vm_compute; reflexivity|]. split; [reflexivity|].
  destruct (split_ids_partition small_files empty_store small_lines eq_refl)
    as (uid2split & Hu & _ & P).
  vm_compute in Hu. injection Hu as <-.
  cbv beta iota zeta delta [data_split_ids] in P.
  destruct P as (_ & _ & _ & _ & P).
  intros id. refine (proj1 (proj2 (P _ id))).
  intros u v Hu Hv E. simpl in Hu, Hv.
  destruct Hu as [<-|[<-|[]]]; destruct Hv as [<-|[<-|[]]];
    try reflexivity; vm_compute in E; discriminate.
Defined.

(** C4, as stated: two identifiers of a manifest that differ only in a
    ['/'] against a ['-'] have one record id, which then stands in the
    train list and in the valid list at once. *)
Lemma split_ids_overlap :
  exists c,
    __init__ two_files empty_store two_lines = Ok c
    /\ _get_standard_usage two_lines
       = Ok [("id10001/abc/00001.wav", "train");
             ("id10001/abc-00001.wav", "valid")]
    /\ let '(train, valid, _) := data_split_ids c in
       In "id10001-abc-00001" train /\ In "id10001-abc-00001" valid.
Proof.
  eexists. split; [vm_compute; reflexivity|].
  split; [reflexivity|]. vm_compute. auto.
Qed.



(** C10, as the code has it.  [code2split] is not guarded: the codes
    0, -1 and -2 give test, valid and train, and [IndexError] is raised
    exactly by the codes 4 and above and by the codes -3 and below.  A
    line of the split file with code 0 is read as an utterance of the
    test split. *)
Theorem code2split_unguarded :
  code2split 0 = Ok "test"
  /\ code2split (-1) = Ok "valid"
  /\ code2split (-2) = Ok "train"
  /\ (forall code, code2split code = Raise IndexError
                    <-> (4 <= code \/ code <= -3)%Z)
  /\ (forall code e, code2split code = Raise e -> e = IndexError)
  /\ (forall uid, uid <> "" -> has_space uid = false ->
        _get_standard_usage ["0 " ++ uid ++ newline] = Ok [(uid, "test")]).
Proof.
  repeat (split; [reflexivity|]).
  split; [|split].
  - intros code. rewrite code2split_cases. split.
    + intros H.
      destruct (Z.eqb_spec code 1); [discriminate|].
      destruct (Z.eqb_spec code (-2)); [discriminate|].
      destruct (Z.eqb_spec code 2); [discriminate|].
      destruct (Z.eqb_spec code (-1)); [discriminate|].
      destruct (Z.eqb_spec code 3); [discriminate|].
      destruct (Z.eqb_spec code 0); [discriminate|].
      lia.
    + intros H.
      repeat match goal with
             | |- context [(code =? ?c)%Z] =>
                 replace (code =? c)%Z with false
                   by (symmetry; apply Z.eqb_neq; lia)
             end.
      reflexivity.
  - intros code e. rewrite code2split_cases.
    repeat match goal with
           | |- context [if ?b then _ else _] => destruct b
           end; congruence.
  - intros uid Hne Hsp. unfold _get_standard_usage. cbn [map].
    change ("0 " ++ uid ++ newline) with ("0" ++ " " ++ uid ++ newline).
    rewrite fields_of_line by (auto; discriminate).
    reflexivity.
Qed.

Lemma code2split_unguarded_witness :
  "id10001/abc/00001.wav" <> "" /\ has_space "id10001/abc/00001.wav" = false
  /\ _get_standard_usage ["0 id10001/abc/00001.wav" ++ newline]
     = Ok [("id10001/abc/00001.wav", "test")].
Proof.
  split; [discriminate|]. split; [reflexivity|].
  refine (proj2 (proj2 (proj2 (proj2 (proj2 code2split_unguarded))))
            "id10001/abc/00001.wav" _ eq_refl).
  discriminate.
Defined.

(** C10, as stated: the code -3 is below 4 and raises [IndexError]. *)
Lemma code2split_below_range :
  ~ (forall code, code2split code = Raise IndexError -> (4 <= code)%Z).
Proof.
  intros H. specialize (H (-3)%Z eq_refl). lia.
Qed.

End CorpusClaims.

(* ================================================================= *)
(** * Facts about the tensor operations *)

Module TorchFacts.

Import Torch BatchAux.

(** ** Rows of a row-major list *)

Section Rows.
Context {A : Type}.

Lemma firstn_app_exact (r l : list A) : firstn (List.length r) (r ++ l) = r.
Proof. induction r as [|a r IH]; simpl; [now destruct l | now rewrite IH]. Qed.

Lemma skipn_app_exact (r l : list A) : skipn (List.length r) (r ++ l) = l.
Proof. induction r as [|a r IH]; simpl; auto. Qed.

Lemma length_concat_uniform (h : nat) (rows : list (list A)) :
  Forall (fun r => List.length r = h) rows ->
  List.length (List.concat rows) = (List.length rows * h)%nat.
Proof.
  induction 1 as [|r rows Hr _ IH]; simpl; [reflexivity|].
  rewrite length_app, IH, Hr. reflexivity.
Qed.

Lemma Forall_concat (P : A -> Prop) (rows : list (list A)) :
  Forall (Forall P) rows -> Forall P (List.concat rows).
Proof.
  induction 1 as [|r rows Hr _ IH]; simpl; [constructor|].
  apply Forall_app. now split.
Qed.
End Rows.

Lemma length_chunks (h n : nat) (l : list R) : List.length (chunks h n l) = n.
Proof. revert l. induction n as [|n IH]; intros l; simpl; auto. Qed.

Lemma chunks_concat (h : nat) (rows : list (list R)) (rest : list R) :
  Forall (fun r => List.length r = h) rows ->
  chunks h (List.length rows) (List.concat rows ++ rest) = rows.
Proof.
  induction 1 as [|r rows Hr _ IH]; simpl; [reflexivity|].
  rewrite <- app_assoc.
  replace (firstn h (r ++ List.concat rows ++ rest)) with r
    by (rewrite <- Hr; symmetry; apply firstn_app_exact).
  replace (skipn h (r ++ List.concat rows ++ rest)) with (List.concat rows ++ rest)
    by (rewrite <- Hr; symmetry; apply skipn_app_exact).
  now rewrite IH.
Qed.

Lemma chunks_concat_all (h n : nat) (rows : list (list R)) :
  Forall (fun r => List.length r = h) rows ->
  n = List.length rows ->
  chunks h n (List.concat rows) = rows.
Proof.
  intros F ->. rewrite <- (app_nil_r (List.concat rows)). now apply chunks_concat.
Qed.

Lemma chunks_singletons (n : nat) (l : list R) :
  n = List.length l -> chunks 1 n l = map (fun v => [v]) l.
Proof.
  intros ->. induction l as [|a l IH]; simpl; [reflexivity|]. now rewrite IH.
Qed.

Lemma concat_singletons {A B : Type} (f : A -> B) (l : list A) :
  List.concat (map (fun v => [f v]) l) = map f l.
Proof. induction l as [|a l IH]; simpl; [reflexivity | now rewrite IH]. Qed.

(** ** Sums *)

Local Open Scope R_scope.

Lemma length_zip_with {A B C : Type} (f : A -> B -> C) (l : list A) (m : list B) :
  List.length l = List.length m ->
  List.length (zip_with f l m) = List.length l.
Proof.
  revert m. induction l as [|a l IH]; intros [|b m]; simpl; try discriminate; auto.
Qed.

Lemma zip_with_map_r {A B C D : Type} (f : A -> B -> C) (g : D -> B)
    (l : list A) (m : list D) :
  zip_with f l (map g m) = zip_with (fun a d => f a (g d)) l m.
Proof.
  revert m. induction l as [|a l IH]; intros [|b m]; simpl; try reflexivity.
  now rewrite IH.
Qed.

Lemma zip_with_diag {A B C : Type} (f : A -> B -> C) (g : A -> B) (l : list A) :
  zip_with f l (map g l) = map (fun a => f a (g a)) l.
Proof. induction l as [|a l IH]; simpl; [reflexivity | now rewrite IH]. Qed.

Lemma length_col_sums (w : nat) (m : list (list R)) :
  Forall (fun r => List.length r = w) m -> List.length (col_sums w m) = w.
Proof.
  unfold col_sums. induction 1 as [|r m Hr _ IH]; simpl.
  - apply repeat_length.
  - rewrite length_zip_with; congruence.
Qed.

Lemma col_sums_singletons (l : list R) :
  col_sums 1 (map (fun v => [v]) l) = [rsum l].
Proof.
  unfold col_sums. induction l as [|a l IH]; [reflexivity|].
  cbn [map fold_right]. rewrite IH. reflexivity.
Qed.

Lemma softmax_cols_row (l : list R) :
  softmax_cols 1 (map (fun v => [v]) l) = row_softmax l.
Proof.
  assert (E : map (map exp) (map (fun v => [v]) l)
              = map (fun v => [v]) (map exp l))
    by (rewrite !map_map; reflexivity).
  unfold softmax_cols, row_softmax.
  rewrite E, col_sums_singletons, !map_map.
  exact (concat_singletons (fun v => exp v / rsum (map exp l)) l).
Qed.


Lemma rsum_exp_pos (l : list R) : l <> [] -> 0 < rsum (map exp l).
Proof.
  destruct l as [|a l]; [congruence|]. intros _. unfold rsum. simpl.
  assert (0 <= fold_right Rplus 0 (map exp l)).
  { induction l as [|b l IH]; simpl; [lra|]. pose proof (exp_pos b). lra. }
  pose proof (exp_pos a). lra.
Qed.

Lemma rsum_map_div (z : R) (l : list R) :
  rsum (map (fun v => v / z) l) = rsum l / z.
Proof.
  unfold rsum, Rdiv. induction l as [|a l IH]; simpl; [lra | rewrite IH; lra].
Qed.

(** The weights of a non-empty row are positive and sum to one. *)
Lemma row_softmax_sum (l : list R) : l <> [] -> rsum (row_softmax l) = 1.
Proof.
  intros Hl. pose proof (rsum_exp_pos Hl) as Hz. unfold row_softmax.
  rewrite <- (map_map exp (fun e => e / rsum (map exp l))), rsum_map_div.
  field. lra.
Qed.

Lemma row_softmax_pos (l : list R) : Forall (fun w => 0 < w) (row_softmax l).
Proof.
  unfold row_softmax. apply Forall_forall. intros w Hw.
  apply in_map_iff in Hw as (v & <- & Hv).
  assert (Hl : l <> []) by (intros ->; contradiction).
  apply Rdiv_lt_0_compat; [apply exp_pos | now apply rsum_exp_pos].
Qed.

Lemma length_row_softmax (l : list R) : List.length (row_softmax l) = List.length l.
Proof. unfold row_softmax. apply length_map. Qed.

End TorchFacts.

(* ================================================================= *)
(** * The operations on a batch of sequences *)

Module BatchFacts.

Import Torch BatchAux TorchFacts.

Lemma zip_with_ext_in {A B C : Type} (f g : A -> B -> C) (l : list A) (m : list B) :
  (forall a b, In a l -> f a b = g a b) -> zip_with f l m = zip_with g l m.
Proof.
  revert m. induction l as [|a l IH]; intros [|b m] H; simpl; try reflexivity.
  rewrite H by now left. rewrite IH; [reflexivity|].
  intros x y Hx. apply H. now right.
Qed.

Lemma concat_concat {A : Type} (x : list (list (list A))) :
  List.concat (map (@List.concat A) x) = List.concat (List.concat x).
Proof.
  induction x as [|s x IH]; simpl; [reflexivity|].
  now rewrite concat_app, IH.
Qed.

Lemma numel_rank3 (N T H : nat) : numel_of [N; T; H] = (N * (T * H))%nat.
Proof. cbn [numel_of fold_right]. now rewrite Nat.mul_1_r. Qed.

Section Batch.
Variables N T H : nat.
Variable x : batch.
Hypothesis Hx : batch_wf N T H x.

Lemma wf_length : List.length x = N.
Proof. exact (proj1 Hx). Qed.

Lemma wf_seq (seq : list (list R)) :
  In seq x ->
  List.length seq = T /\ Forall (fun frame => List.length frame = H) seq.
Proof. intros Hin. exact (proj1 (Forall_forall _ _) (proj2 Hx) seq Hin). Qed.

Lemma wf_seq_lengths : Forall (fun seq : list (list R) => List.length seq = T) x.
Proof. apply Forall_forall. intros seq Hin. exact (proj1 (wf_seq seq Hin)). Qed.

Lemma wf_frames : Forall (fun frame => List.length frame = H) (List.concat x).
Proof.
  apply Forall_concat, Forall_forall. intros seq Hin. exact (proj2 (wf_seq seq Hin)).
Qed.

Lemma wf_frame_count : List.length (List.concat x) = (N * T)%nat.
Proof. rewrite (length_concat_uniform wf_seq_lengths), wf_length. reflexivity. Qed.

Lemma wf_blocks :
  Forall (fun block => List.length block = (T * H)%nat) (map (@List.concat R) x).
Proof.
  apply Forall_forall. intros block Hin.
  apply in_map_iff in Hin as (seq & <- & Hin).
  destruct (wf_seq seq Hin) as [HT HF].
  now rewrite (length_concat_uniform HF), HT.
Qed.

(** A well-formed batch is a well-formed tensor. *)
Lemma of_batch_wf : wf (of_batch N T H x).
Proof.
  unfold wf, numel, of_batch. cbn [shape data].
  rewrite numel_rank3, (length_concat_uniform wf_blocks), length_map, wf_length.
  reflexivity.
Qed.

(** [nn.Linear] on a batch: one logit per frame. *)
Lemma linear_of_batch (l : Linear) :
  in_features l = H ->
  linear l (of_batch N T H x)
  = Ok (Tensor [N; T; 1%nat] (List.concat (map (map (logit l)) x))).
Proof.
  intros Hl. unfold linear, of_batch.
  cbn [shape data last removelast app numel_of fold_right].
  rewrite Hl, Nat.eqb_refl, concat_concat.
  rewrite (chunks_concat_all wf_frames)
    by (rewrite wf_frame_count; lia).
  now rewrite <- concat_map.
Qed.

(** Softmax without [dim] on the (N, T) logits: along the sequence
    axis, one row at a time. *)
Lemma softmax_of_rows (rows : list (list R)) :
  List.length rows = N ->
  Forall (fun r : list R => List.length r = T) rows ->
  softmax_implicit (Tensor [N; T] (List.concat rows))
  = Ok (Tensor [N; T] (List.concat (map row_softmax rows))).
Proof.
  intros Hn Hr. unfold softmax_implicit, softmax, on_blocks.
  cbn [ndim shape data List.length _get_softmax_dim Nat.eqb orb Nat.ltb Nat.leb
       outer_n axis_n inner_n firstn skipn nth numel_of fold_right].
  rewrite !Nat.mul_1_r.
  rewrite (chunks_concat_all Hr) by congruence.
  do 3 f_equal. apply map_ext_in. intros r Hin.
  rewrite chunks_singletons
    by (symmetry; exact (proj1 (Forall_forall _ _) Hr r Hin)).
  apply softmax_cols_row.
Qed.

(** A frame times its weight. *)
Lemma broadcast_frame (frame : list R) (c : R) :
  List.length frame = H ->
  broadcast_data Rmult [H] [1%nat] frame [c] = scale c frame.
Proof.
  intros Hf. cbn [broadcast_data numel_of fold_right chunks firstn].
  rewrite (chunks_singletons frame (eq_sym Hf)).
  destruct (H =? 1)%nat eqn:E.
  - apply Nat.eqb_eq in E. rewrite E in Hf.
    destruct frame as [|a [|b frame]]; try discriminate. reflexivity.
  - rewrite map_map. exact (concat_singletons (fun v => (v * c)%R) frame).
Qed.

Lemma broadcast_seq (seq : list (list R)) (ws : list R) :
  List.length seq = T -> List.length ws = T ->
  Forall (fun frame => List.length frame = H) seq ->
  broadcast_data Rmult [T; H] [T; 1%nat] (List.concat seq) ws
  = List.concat (zip_with (fun frame c => scale c frame) seq ws).
Proof.
  intros Hs Hw Hf.
  cbn [broadcast_data numel_of fold_right].
  rewrite Nat.eqb_refl, !Nat.mul_1_r.
  rewrite (chunks_concat_all Hf) by congruence.
  rewrite (chunks_singletons ws (eq_sym Hw)), zip_with_map_r.
  f_equal. apply zip_with_ext_in. intros frame c Hin.
  apply broadcast_frame. exact (proj1 (Forall_forall _ _) Hf frame Hin).
Qed.

(** [batch_rep * att_w] *)
Lemma mul_of_batch (wrows : list (list R)) :
  List.length wrows = N ->
  Forall (fun r : list R => List.length r = T) wrows ->
  mul (of_batch N T H x) (Tensor [N; T; 1%nat] (List.concat wrows))
  = Ok (Tensor [N; T; H]
          (List.concat
             (map (@List.concat R)
                  (zip_with (zip_with (fun frame c => scale c frame)) x wrows)))).
Proof.
  intros Hn Hr. unfold mul, of_batch.
  cbn [ndim shape data List.length Nat.max pad_shape Nat.sub repeat app
       broadcast_shapes bind].
  change (pad_shape 3 [N; T; H]) with [N; T; H].
  change (pad_shape 3 [N; T; 1%nat]) with [N; T; 1%nat].
  cbn [broadcast_shapes bind].
  rewrite !Nat.eqb_refl. cbn [bind].
  assert (S : (if (H =? 1)%nat then Ok [H]
               else if (H =? 1)%nat then Ok [1%nat] else Ok [H])
              = Ok [H]) by (destruct (H =? 1)%nat eqn:E; auto;
                            apply Nat.eqb_eq in E; now rewrite E).
  rewrite S. cbn [bind]. do 2 f_equal.
  cbn [broadcast_data]. rewrite Nat.eqb_refl.
  change (numel_of [T; H]) with (T * (H * 1))%nat.
  change (numel_of [T; 1%nat]) with (T * (1 * 1))%nat.
  rewrite !Nat.mul_1_r.
  rewrite (chunks_concat_all wf_blocks) by (rewrite length_map; symmetry; apply wf_length).
  rewrite (chunks_concat_all Hr) by congruence.
  f_equal.
  assert (G : forall (y : batch) (ws : list (list R)),
             Forall (fun seq => List.length seq = T
                                /\ Forall (fun frame => List.length frame = H) seq) y ->
             Forall (fun r : list R => List.length r = T) ws ->
             zip_with (broadcast_data Rmult [T; H] [T; 1%nat])
                      (map (@List.concat R) y) ws
             = map (@List.concat R)
                   (zip_with (zip_with (fun frame c => scale c frame)) y ws)).
  { induction y as [|seq y IH]; intros [|w ws] Fy Fw; simpl; try reflexivity.
    destruct (Forall_inv Fy) as [Hs Hf].
    rewrite <- (IH ws (Forall_inv_tail Fy) (Forall_inv_tail Fw)). f_equal.
    exact (@broadcast_seq seq w Hs (Forall_inv Fw) Hf). }
  apply G; [exact (proj2 Hx) | assumption].
Qed.

(** [torch.sum(_, dim=1)] on a batch: the frames of a sequence are
    added up. *)
Lemma sum_dim1_of_batch :
  sum_dim1 (of_batch N T H x)
  = Ok (Tensor [N; H] (List.concat (map (col_sums H) x))).
Proof.
  unfold sum_dim1, of_batch, on_blocks.
  cbn [shape data outer_n axis_n inner_n firstn skipn nth numel_of fold_right].
  rewrite !Nat.mul_1_r.
  rewrite (chunks_concat_all wf_blocks) by (rewrite length_map; symmetry; apply wf_length).
  rewrite map_map. do 3 f_equal. apply map_ext_in. intros seq Hin.
  destruct (wf_seq seq Hin) as [Hs Hf].
  now rewrite (chunks_concat_all Hf) by congruence.
Qed.

(** [x.squeeze(-1).mean(dim=-1)] on the (N, T, 1) frame scores. *)
Lemma mean_of_rows (rows : list (list R)) :
  List.length rows = N ->
  Forall (fun r : list R => List.length r = T) rows ->
  mean_last (squeeze_last (Tensor [N; T; 1%nat] (List.concat rows)))
  = Tensor [N] (map rmean rows).
Proof.
  intros Hn Hr. unfold mean_last, squeeze_last.
  cbn [shape data last removelast Nat.eqb numel_of fold_right].
  rewrite Nat.mul_1_r. now rewrite (chunks_concat_all Hr) by congruence.
Qed.
End Batch.

Lemma linear_of_rows (l : Linear) (N H : nat) (rows : list (list R)) :
  in_features l = H ->
  List.length rows = N ->
  Forall (fun r : list R => List.length r = H) rows ->
  linear l (Tensor [N; H] (List.concat rows))
  = Ok (Tensor [N; 1%nat] (map (logit l) rows)).
Proof.
  intros Hl Hn Hr. unfold linear.
  cbn [shape data last removelast app numel_of fold_right].
  rewrite Hl, Nat.eqb_refl, Nat.mul_1_r.
  now rewrite (chunks_concat_all Hr) by congruence.
Qed.

End BatchFacts.

(* ================================================================= *)
(** * The scoring head on a batch *)

Module ModelFacts.

Import Torch BatchAux TorchFacts BatchFacts.
Local Open Scope R_scope.

(** ** Clipping *)



Lemma data_squeeze_last (t : tensor) : data (squeeze_last t) = data t.
Proof.
  unfold squeeze_last. destruct (shape t); [reflexivity|].
  now destruct (last _ _ =? 1)%nat.
Qed.

(** ** Sums of frames *)



(** ** Scores of one sequence *)


Lemma scaled_frames (w : Linear) (seq : list (list R)) :
  zip_with (fun frame c => scale c frame) seq (seq_weights w seq)
  = map (fun frame =>
           scale (exp (logit w frame) / rsum (map exp (map (logit w) seq))) frame)
        seq.
Proof.
  unfold seq_weights, row_softmax. rewrite map_map.
  exact (zip_with_diag (fun frame c => scale c frame)
           (fun frame => exp (logit w frame) / rsum (map exp (map (logit w) seq)))
           seq).
Qed.



Lemma length_seq_weights (w : Linear) (seq : list (list R)) :
  List.length (seq_weights w seq) = List.length seq.
Proof. unfold seq_weights. now rewrite length_row_softmax, length_map. Qed.

Lemma length_pooled (w : Linear) (H : nat) (seq : list (list R)) :
  Forall (fun frame => List.length frame = H) seq ->
  List.length (pooled w H seq) = H.
Proof.
  intros F. unfold pooled. apply length_col_sums.
  rewrite scaled_frames. apply Forall_forall. intros f Hin.
  apply in_map_iff in Hin as (frame & <- & Hin).
  unfold scale. rewrite length_map.
  exact (proj1 (Forall_forall _ _) F frame Hin).
Qed.

(** ** Well-formed batches *)



(** ** The layers on a batch *)

Section OnBatch.
Variables N T H : nat.
Variable x : batch.
Hypothesis Hx : batch_wf N T H x.

Lemma att_w_of_batch (p : SelfAttentionPooling.t) :
  in_features (SelfAttentionPooling.W p) = H ->
  SelfAttentionPooling.att_w p (of_batch N T H x)
  = Ok (Tensor [N; T; 1%nat]
          (List.concat (map (seq_weights (SelfAttentionPooling.W p)) x))).
Proof.
  intros Hp. unfold SelfAttentionPooling.att_w.
  rewrite (linear_of_batch Hx _ Hp). cbn [bind].
  change (squeeze_last (Tensor [N; T; 1%nat] ?d)) with (Tensor [N; T] d).
  rewrite softmax_of_rows.
  - cbn [bind]. unfold unsqueeze_last. cbn [shape data app].
    now rewrite map_map.
  - rewrite length_map. exact (wf_length Hx).
  - apply Forall_forall. intros r Hin.
    apply in_map_iff in Hin as (seq & <- & Hin).
    rewrite length_map. exact (proj1 (wf_seq Hx seq Hin)).
Qed.

Lemma pooling_of_batch (p : SelfAttentionPooling.t) :
  in_features (SelfAttentionPooling.W p) = H ->
  SelfAttentionPooling.forward p (of_batch N T H x)
  = Ok (Tensor [N; H]
          (List.concat (map (pooled (SelfAttentionPooling.W p) H) x))).
Proof.
  intros Hp. unfold SelfAttentionPooling.forward.
  rewrite (att_w_of_batch _ Hp). cbn [bind].
  set (w := SelfAttentionPooling.W p).
  assert (Hw : Forall (fun r : list R => List.length r = T) (map (seq_weights w) x)).
  { apply Forall_forall. intros r Hin.
    apply in_map_iff in Hin as (seq & <- & Hin).
    rewrite length_seq_weights. exact (proj1 (wf_seq Hx seq Hin)). }
  rewrite (mul_of_batch Hx)
    by (try rewrite length_map; try exact (wf_length Hx); exact Hw).
  cbn [bind]. rewrite zip_with_diag.
  set (x' := map _ x).
  assert (Hx' : batch_wf N T H x').
  { split.
    - unfold x'. rewrite length_map. exact (wf_length Hx).
    - apply Forall_forall. intros s Hin. unfold x' in Hin.
      apply in_map_iff in Hin as (seq & <- & Hin).
      destruct (wf_seq Hx seq Hin) as [Hl Hf].
      rewrite scaled_frames. split.
      + now rewrite length_map.
      + apply Forall_forall. intros f Hf'.
        apply in_map_iff in Hf' as (frame & <- & Hfr).
        unfold scale. rewrite length_map.
        exact (proj1 (Forall_forall _ _) Hf frame Hfr). }
  change (Tensor [N; T; H] (List.concat (map (@List.concat R) x')))
    with (of_batch N T H x').
  rewrite (sum_dim1_of_batch Hx'). cbn [bind].
  unfold x'. now rewrite map_map.
Qed.

Lemma raw_score_mean (m : Model.t) :
  Model.pooling m = None ->
  in_features (Model.linear m) = H ->
  Model.raw_score m (of_batch N T H x)
  = Ok (Tensor [N] (map (mean_score (Model.linear m)) x)).
Proof.
  intros Hp Hl. unfold Model.raw_score. rewrite Hp.
  rewrite (linear_of_batch Hx _ Hl). cbn [bind].
  rewrite (mean_of_rows (N := N) (T := T)).
  - now rewrite map_map.
  - rewrite length_map. exact (wf_length Hx).
  - apply Forall_forall. intros r Hin.
    apply in_map_iff in Hin as (seq & <- & Hin).
    rewrite length_map. exact (proj1 (wf_seq Hx seq Hin)).
Qed.

Lemma raw_score_attention (m : Model.t) (p : SelfAttentionPooling.t) :
  Model.pooling m = Some p ->
  in_features (SelfAttentionPooling.W p) = H ->
  in_features (Model.linear m) = H ->
  Model.raw_score m (of_batch N T H x)
  = Ok (Tensor [N; 1%nat]
          (map (attention_score (SelfAttentionPooling.W p) (Model.linear m) H) x)).
Proof.
  intros Hp Hw Hl. unfold Model.raw_score. rewrite Hp.
  rewrite (pooling_of_batch _ Hw). cbn [bind].
  rewrite (linear_of_rows _ Hl (N := N)).
  - now rewrite map_map.
  - rewrite length_map. exact (wf_length Hx).
  - apply Forall_forall. intros r Hin.
    apply in_map_iff in Hin as (seq & <- & Hin).
    apply length_pooled. exact (proj2 (wf_seq Hx seq Hin)).
Qed.
End OnBatch.

End ModelFacts.

(* ================================================================= *)
(** * Shapes *)

Module ShapeFacts.

Import Torch BatchAux TorchFacts.

Lemma linear_last (lyr : Linear) (l : list nat) (h : nat) (d : list R) :
  linear lyr (Tensor (l ++ [h]) d)
  = if (h =? in_features lyr)%nat
    then Ok (Tensor (l ++ [1%nat])
               (map (fun row => (dot (weight lyr) row + bias lyr)%R)
                    (chunks h (numel_of l) d)))
    else Raise RuntimeError.
Proof.
  unfold linear. cbn [shape data].
  rewrite last_last, removelast_last.
  destruct (l ++ [h]) eqn:E; [now destruct l | reflexivity].
Qed.


Lemma squeeze_last_one (l : list nat) (d : list R) :
  squeeze_last (Tensor (l ++ [1%nat]) d) = Tensor l d.
Proof.
  unfold squeeze_last. cbn [shape data].
  rewrite last_last, removelast_last.
  destruct (l ++ [1%nat]) eqn:E; [now destruct l | reflexivity].
Qed.

(** Softmax without [dim] never raises and keeps the shape. *)
Lemma softmax_implicit_shape (t : tensor) :
  exists d, softmax_implicit t = Ok (Tensor (shape t) d).
Proof.
  unfold softmax_implicit, softmax, _get_softmax_dim, ndim.
  destruct (shape t) as [|a [|b [|c [|e s]]]]; cbn [List.length Nat.eqb orb Nat.ltb Nat.leb];
    eexists; reflexivity.
Qed.

Lemma broadcast_shapes_last (l : list nat) (h : nat) :
  broadcast_shapes (l ++ [h]) (l ++ [1%nat]) = Ok (l ++ [h]).
Proof.
  induction l as [|a l IH]; simpl.
  - now destruct (h =? 1)%nat.
  - simpl in IH. rewrite IH. simpl. now rewrite Nat.eqb_refl.
Qed.

Lemma mul_last (l : list nat) (h : nat) (da db : list R) :
  exists d,
    mul (Tensor (l ++ [h]) da) (Tensor (l ++ [1%nat]) db) = Ok (Tensor (l ++ [h]) d).
Proof.
  unfold mul, ndim, pad_shape. cbn [shape data].
  rewrite !length_app. cbn [List.length].
  rewrite Nat.max_id, Nat.sub_diag. cbn [repeat].
  rewrite !app_nil_l, broadcast_shapes_last. cbn [bind]. eexists; reflexivity.
Qed.

(** Steps of a proof that follows the tensor through
    [SelfAttentionPooling.forward]: the softmax returns a tensor of the
    same shape, and the product with the weights returns a tensor of
    the shape of the features. *)
Ltac softmax_returns :=
  match goal with
  | |- context [softmax_implicit ?t] =>
      let d := fresh "d" in
      let E := fresh "E" in
      destruct (softmax_implicit_shape t) as [d E]; rewrite E; clear E
  end.

Ltac mul_returns l h :=
  match goal with
  | |- context [mul (Tensor _ ?da) (Tensor _ ?db)] =>
      let d := fresh "d" in
      let E := fresh "E" in
      destruct (mul_last l h da db) as [d E]; rewrite E; clear E
  end.

(** ** The score before clipping *)

Section Scores.
Variable H : nat.
Variable m : Model.t.
Hypothesis Hm : model_wf H m.

Lemma raw_mean_last (l : list nat) (d : list R) :
  Model.pooling m = None ->
  exists d',
    Model.raw_score m (Tensor (l ++ [H]) d) = Ok (Tensor (removelast l) d')
    /\ List.length d' = numel_of (removelast l).
Proof.
  intros Hp. unfold Model.raw_score. rewrite Hp, linear_last.
  rewrite (proj1 Hm), Nat.eqb_refl. cbn [bind].
  rewrite squeeze_last_one. unfold mean_last. cbn [shape data].
  destruct l as [|a l]; eexists; (split; [reflexivity|]);
    now rewrite length_map, length_chunks.
Qed.


(** Attention pooling on an input of three axes or more. *)
Lemma raw_attention_rank3 (p : SelfAttentionPooling.t)
    (a b : nat) (l : list nat) (d : list R) :
  Model.pooling m = Some p ->
  exists d',
    Model.raw_score m (Tensor (a :: b :: l ++ [H]) d)
    = Ok (Tensor (a :: l ++ [1%nat]) d')
    /\ List.length d' = numel_of (a :: l).
Proof.
  intros Hp. destruct Hm as [Hl Hw]. rewrite Hp in Hw.
  unfold Model.raw_score, SelfAttentionPooling.forward, SelfAttentionPooling.att_w.
  rewrite Hp.
  change (a :: b :: l ++ [H]) with ((a :: b :: l) ++ [H]).
  rewrite linear_last, Hw, Nat.eqb_refl. cbn [bind].
  rewrite squeeze_last_one.
  softmax_returns.
  cbn [bind shape]. unfold unsqueeze_last. cbn [shape data].
  mul_returns (a :: b :: l) H.
  cbn [bind]. unfold sum_dim1. cbn [shape data].
  change ((a :: b :: l) ++ [H]) with (a :: b :: (l ++ [H])).
  cbn iota. cbn [bind].
  change (a :: l ++ [H]) with ((a :: l) ++ [H]).
  rewrite linear_last, Hl, Nat.eqb_refl.
  eexists. split; [reflexivity|].
  now rewrite length_map, length_chunks.
Qed.



End Scores.



End ShapeFacts.

(* ================================================================= *)
(** * Properties of the scoring head *)

Module ModelClaims.

Import Torch BatchAux TorchFacts BatchFacts ModelFacts ShapeFacts.
Local Open Scope R_scope.

(** ** Shared lemmas *)

Lemma forward_rank3 (m : Model.t) (N T H : nat) (d : list R) :
  model_wf H m ->
  exists out,
    Model.forward m (Tensor [N; T; H] d) = Ok out
    /\ List.length (data out) = N
    /\ shape out = match Model.pooling m with
                   | Some _ => [N]
                   | None => if (N =? 1)%nat then [] else [N]
                   end.
Proof.
  intros Hm. unfold Model.forward.
  destruct (Model.pooling m) as [p|] eqn:Hp.
  - destruct (raw_attention_rank3 Hm N T [] d Hp) as (d' & E & L).
    change (N :: T :: [] ++ [H]) with [N; T; H] in E. rewrite E. cbn [bind].
    cbn [numel_of fold_right] in L. rewrite Nat.mul_1_r in L.
    change (N :: [] ++ [1%nat]) with ([N] ++ [1%nat]).
    destruct (Model.clipping m); unfold map_data; cbn [shape data];
      rewrite squeeze_last_one; eexists; (split; [reflexivity|]);
      cbn [shape data]; rewrite ?length_map; auto.
  - destruct (raw_mean_last Hm [N; T] d Hp) as (d' & E & L).
    change ([N; T] ++ [H]) with [N; T; H] in E. rewrite E. cbn [bind].
    cbn [removelast numel_of fold_right] in L. rewrite Nat.mul_1_r in L.
    cbn [removelast].
    destruct (Model.clipping m); unfold map_data, squeeze_last;
      cbn [shape data last removelast];
      destruct (N =? 1)%nat; eexists; (split; [reflexivity|]);
      cbn [shape data]; rewrite ?length_map; auto.
Qed.




(* ----------------------------------------------------------------- *)
(** ** Claims *)

(** C1. On an input of size (N, T, H), a model whose layers take
    frames of [H] entries returns a tensor that holds exactly [N]
    scores, under mean pooling and under attention pooling, with and
    without clipping.  The scores form a vector of length [N]; only
    under mean pooling with [N = 1] the last [squeeze(-1)] leaves a
    0-dimensional tensor, which holds the one score. *)
Theorem forward_one_score_per_sequence (m : Model.t) (N T H : nat) (t : tensor) :
  model_wf H m ->
  shape t = [N; T; H] ->
  exists out,
    Model.forward m t = Ok out
    /\ List.length (data out) = N
    /\ numel out = N
    /\ shape out = match Model.pooling m with
                   | Some _ => [N]
                   | None => if (N =? 1)%nat then [] else [N]
                   end.
Proof.
  intros Hm Hs. destruct t as [s d]. cbn [shape] in Hs. subst s.
  destruct (forward_rank3 N T d Hm) as (out & E & L & S).
  exists out. repeat split; try assumption.
  unfold numel. rewrite S.
  destruct (Model.pooling m); [cbn; lia|].
  destruct (Nat.eqb_spec N 1); cbn; lia.
Qed.

Lemma forward_one_score_per_sequence_witness :
  model_wf 3 (attention_model 3 true)
  /\ shape (zero_tensor [2; 4; 3]%nat) = [2; 4; 3]%nat
  /\ exists out,
       Model.forward (attention_model 3 true) (zero_tensor [2; 4; 3]%nat) = Ok out
       /\ List.length (data out) = 2%nat.
Proof.
  assert (Hm : model_wf 3 (attention_model 3 true)) by (split; reflexivity).
  split; [exact Hm|]. split; [reflexivity|].
  destruct (@forward_one_score_per_sequence
              (attention_model 3 true) 2 4 3 (zero_tensor [2; 4; 3]%nat) Hm eq_refl)
    as (out & E & L & _).
  exists out. split; assumption.
Defined.








(** C7. On a batch of size (N, T, H) with [T >= 1] the attention
    weights are, for every sequence of the batch, the softmax of the
    logits of that sequence alone: a row of [T] non-negative weights
    that sum to 1, laid out along the sequence axis of the (N, T, 1)
    weight tensor. *)
Theorem attention_weights_normalised (p : SelfAttentionPooling.t)
    (N T H : nat) (x : batch) :
  batch_wf N T H x ->
  in_features (SelfAttentionPooling.W p) = H ->
  (1 <= T)%nat ->
  SelfAttentionPooling.att_w p (of_batch N T H x)
  = Ok (Tensor [N; T; 1%nat]
          (List.concat
             (map (fun seq => row_softmax (map (logit (SelfAttentionPooling.W p)) seq))
                  x)))
  /\ Forall (fun seq =>
               let weights := row_softmax (map (logit (SelfAttentionPooling.W p)) seq) in
               List.length weights = T
               /\ Forall (fun c => 0 <= c) weights
               /\ rsum weights = 1) x.
Proof.
  intros Hx Hp HT. split; [exact (att_w_of_batch Hx p Hp)|].
  apply Forall_forall. intros seq Hin. cbv zeta.
  destruct (wf_seq Hx seq Hin) as [Hl _].
  split; [now rewrite length_row_softmax, length_map|]. split.
  - eapply Forall_impl; [|apply row_softmax_pos]. intros c Hc. lra.
  - apply row_softmax_sum. destruct seq; [simpl in Hl; lia | discriminate].
Qed.

Lemma attention_weights_normalised_witness :
  batch_wf 1 2 1 [[[0]; [1]]]
  /\ in_features (ones_layer 1) = 1%nat
  /\ (1 <= 2)%nat
  /\ Forall (fun seq =>
               let weights := row_softmax (map (logit (ones_layer 1)) seq) in
               List.length weights = 2%nat
               /\ Forall (fun c => 0 <= c) weights
               /\ rsum weights = 1) [[[0]; [1]]].
Proof.
  assert (W : batch_wf 1 2 1 [[[0]; [1]]]) by (split; repeat constructor).
  split; [exact W|]. split; [reflexivity|]. split; [lia|].
  exact (proj2 (@attention_weights_normalised
                  {| SelfAttentionPooling.W := ones_layer 1 |} 1 2 1 _
                  W eq_refl (le_S 1 1 (le_n 1)))).
Defined.




End ModelClaims.

(* ================================================================= *)
(** * More about strings and paths *)

Module StringFacts.

Import Py PyAux PyFacts.
Local Open Scope string_scope.

Lemma length_append (a b : string) :
  String.length (a ++ b) = (String.length a + String.length b)%nat.
Proof. induction a as [|c a IH]; simpl; [reflexivity | now rewrite IH]. Qed.

Lemma has_char_app (c : ascii) (a b : string) :
  has_char c (a ++ b) = has_char c a || has_char c b.
Proof.
  induction a as [|d a IH]; simpl; [reflexivity|].
  now rewrite IH, orb_assoc.
Qed.

Lemma rfind_none (c : ascii) (s : string) :
  has_char c s = false -> rfind c s = None.
Proof.
  induction s as [|d s IH]; simpl; [reflexivity|].
  intros H. apply orb_false_iff in H as [Hd Hs]. now rewrite (IH Hs), Hd.
Qed.

Lemma rfind_app_last (c : ascii) (a b : string) :
  has_char c b = false ->
  rfind c (a ++ String c b) = Some (String.length a).
Proof.
  intros Hb. induction a as [|d a IH]; simpl.
  - now rewrite (rfind_none _ _ Hb), Ascii.eqb_refl.
  - now rewrite IH.
Qed.

Lemma slice_to_app (a b : string) : slice_to (String.length a) (a ++ b) = a.
Proof.
  induction a as [|c a IH]; simpl; [now destruct b | now rewrite IH].
Qed.

Lemma has_char_slice_to (c : ascii) (n : nat) (s : string) :
  has_char c s = false -> has_char c (slice_to n s) = false.
Proof.
  revert n. induction s as [|d s IH]; intros [|n]; simpl; try reflexivity.
  intros H. apply orb_false_iff in H as [Hd Hs]. now rewrite Hd, (IH n Hs).
Qed.

Lemma replace_app (a b : ascii) (x y : string) :
  replace a b (x ++ y) = replace a b x ++ replace a b y.
Proof. induction x as [|c x IH]; simpl; [reflexivity | now rewrite IH]. Qed.

Lemma replace_absent (a b : ascii) (s : string) :
  has_char a s = false -> replace a b s = s.
Proof.
  induction s as [|c s IH]; simpl; [reflexivity|].
  intros H. apply orb_false_iff in H as [Hc Hs]. now rewrite Hc, (IH Hs).
Qed.

Lemma has_char_replace (a b : ascii) (s : string) :
  a <> b -> has_char a (replace a b s) = false.
Proof.
  intros Hab. induction s as [|c s IH]; simpl; [reflexivity|].
  rewrite IH, orb_false_r.
  destruct (Ascii.eqb_spec c a) as [->|Hc].
  - destruct (Ascii.eqb_spec b a); [congruence | reflexivity].
  - destruct (Ascii.eqb_spec c a); [contradiction | reflexivity].
Qed.

Lemma has_char_replace_other (a b c : ascii) (s : string) :
  c <> b -> has_char c s = false -> has_char c (replace a b s) = false.
Proof.
  intros Hcb. induction s as [|d s IH]; simpl; [reflexivity|].
  intros H. apply orb_false_iff in H as [Hd Hs]. rewrite (IH Hs), orb_false_r.
  destruct (Ascii.eqb d a); [|assumption].
  destruct (Ascii.eqb_spec b c); [congruence | reflexivity].
Qed.

(** Two strings cut at the first, or at the last, occurrence of a
    character are equal only if their pieces are. *)
Lemma app_inj_first (c : ascii) (a a' r r' : string) :
  has_char c a = false -> has_char c a' = false ->
  a ++ String c r = a' ++ String c r' -> a = a' /\ r = r'.
Proof.
  revert a'. induction a as [|d a IH]; intros [|d' a'] Ha Ha' E; simpl in *.
  - injection E as ->. auto.
  - injection E as <- _. rewrite Ascii.eqb_refl in Ha'. discriminate.
  - injection E as -> _. rewrite Ascii.eqb_refl in Ha. discriminate.
  - injection E as -> E.
    apply orb_false_iff in Ha as [_ Ha]. apply orb_false_iff in Ha' as [_ Ha'].
    destruct (IH a' Ha Ha' E) as [-> ->]. auto.
Qed.

Lemma app_inj_last (c : ascii) (r r' u u' : string) :
  has_char c u = false -> has_char c u' = false ->
  r ++ String c u = r' ++ String c u' -> r = r' /\ u = u'.
Proof.
  intros Hu Hu'. revert r'. induction r as [|d r IH]; intros [|d' r'] E; simpl in *.
  - injection E as ->. auto.
  - injection E as _ E. subst u.
    rewrite has_char_app in Hu. simpl in Hu.
    rewrite Ascii.eqb_refl, orb_true_r in Hu. discriminate.
  - injection E as _ E. subst u'.
    rewrite has_char_app in Hu'. simpl in Hu'.
    rewrite Ascii.eqb_refl, orb_true_r in Hu'. discriminate.
  - injection E as -> E. destruct (IH r' E) as [-> ->]. auto.
Qed.

Lemma app_inv_tail (a b t : string) : a ++ t = b ++ t -> a = b.
Proof.
  intros E.
  assert (L : String.length a = String.length b).
  { apply (f_equal String.length) in E. rewrite !length_append in E. lia. }
  revert b E L. induction a as [|c a IH]; intros [|d b] E L; simpl in *;
    try discriminate; [reflexivity|].
  injection E as -> E. injection L as L. now rewrite (IH b E L).
Qed.

(** ** The stem of a file name *)

Lemma stem_with_suffix (body ext : string) :
  body <> "" -> ext <> "" -> has_char "." ext = false ->
  stem_of_name (body ++ String "." ext) = body.
Proof.
  intros Hb He Hd. unfold stem_of_name.
  rewrite (rfind_app_last _ body _ Hd), length_append. cbn [String.length].
  replace ((0 <? String.length body)%nat) with true
    by (symmetry; apply Nat.ltb_lt; destruct body; [congruence | simpl; lia]).
  replace ((String.length body <? String.length body + S (String.length ext) - 1)%nat)
    with true
    by (symmetry; apply Nat.ltb_lt; destruct ext; [congruence | simpl; lia]).
  apply slice_to_app.
Qed.

Lemma stem_without_dot (s : string) : has_char "." s = false -> stem_of_name s = s.
Proof. intros H. unfold stem_of_name. now rewrite (rfind_none _ _ H). Qed.

Lemma has_char_stem (c : ascii) (s : string) :
  has_char c s = false -> has_char c (stem_of_name s) = false.
Proof.
  intros H. unfold stem_of_name.
  destruct (rfind "." s) as [i|]; [|assumption].
  destruct (_ && _); [now apply has_char_slice_to | assumption].
Qed.

Lemma has_char_path_name (c : ascii) (s : string) :
  has_char c s = false -> has_char c (path_name s) = false.
Proof. intros H. unfold path_name. now destruct (String.eqb s "."). Qed.

Lemma path_name_app_dot (body ext : string) :
  ext <> "" -> path_name (body ++ String "." ext) = body ++ String "." ext.
Proof.
  intros He. unfold path_name.
  destruct (String.eqb_spec (body ++ String "." ext) "."); [|reflexivity].
  exfalso. destruct body as [|c body]; simpl in e.
  - injection e as ->. congruence.
  - injection e as _ E. destruct body; discriminate.
Qed.

Lemma path_name_nonempty_no_dot (s : string) :
  has_char "." s = false -> path_name s = s.
Proof.
  intros H. unfold path_name.
  destruct (String.eqb_spec s "."); [subst s; discriminate | reflexivity].
Qed.

End StringFacts.

(* ================================================================= *)
(** * Record ids and labels *)

Module RecordFacts.

Import Py PyAux PyFacts VoxCeleb1SID CorpusAux CorpusAux2 CorpusFacts StringFacts.
Local Open Scope string_scope.

Lemma record_id_no_slash (uid : string) : has_char "/" (record_id uid) = false.
Proof.
  unfold record_id. apply has_char_stem, has_char_path_name, has_char_replace.
  discriminate.
Qed.

Lemma record_id_suffix (body ext : string) :
  body <> "" -> ext <> "" -> has_char "." ext = false ->
  record_id (body ++ String "." ext) = replace "/" "-" body.
Proof.
  intros Hb He Hd. unfold record_id. rewrite replace_app. cbn [replace].
  change (if Ascii.eqb "." "/" then "-"%char else "."%char) with "."%char.
  assert (He' : replace "/" "-" ext <> "") by (destruct ext; [congruence | discriminate]).
  assert (Hb' : replace "/" "-" body <> "") by (destruct body; [congruence | discriminate]).
  assert (Hd' : has_char "." (replace "/" "-" ext) = false)
    by (apply has_char_replace_other; [discriminate | assumption]).
  rewrite (path_name_app_dot _ He'). now apply stem_with_suffix.
Qed.

Lemma record_id_voxceleb (spk vid utt : string) :
  has_char "/" spk = false -> has_char "/" vid = false -> has_char "/" utt = false ->
  record_id (spk ++ "/" ++ vid ++ "/" ++ utt ++ ".wav")
  = spk ++ "-" ++ vid ++ "-" ++ utt.
Proof.
  intros Hs Hv Hu.
  replace (spk ++ "/" ++ vid ++ "/" ++ utt ++ ".wav")
    with ((spk ++ "/" ++ vid ++ "/" ++ utt) ++ String "." "wav")
    by (rewrite !append_assoc; reflexivity).
  rewrite record_id_suffix; try discriminate; try reflexivity.
  - rewrite !replace_app. cbn [replace Ascii.eqb Bool.eqb].
    now rewrite !replace_absent by assumption.
  - destruct spk; discriminate.
Qed.

Lemma voxceleb_record_id_inj (u v : string) :
  voxceleb_uid u -> voxceleb_uid v -> record_id u = record_id v -> u = v.
Proof.
  intros (s1 & v1 & u1 & -> & Hs1 & Hd1 & Hv1 & Hu1 & He1)
         (s2 & v2 & u2 & -> & Hs2 & Hd2 & Hv2 & Hu2 & He2) E.
  rewrite !record_id_voxceleb in E by assumption.
  cbn [append] in E.
  change (s1 ++ String "-" (v1 ++ String "-" u1)
          = s2 ++ String "-" (v2 ++ String "-" u2)) in E.
  destruct (app_inj_first _ _ _ _ _ Hd1 Hd2 E) as [-> E'].
  destruct (app_inj_last _ _ _ _ _ He1 He2 E') as [-> ->].
  reflexivity.
Qed.

(** ** Labels *)

Lemma str_inj (a b : Z) : str a = str b -> a = b.
Proof.
  unfold str. intros E.
  assert (N : forall z, Z.to_int z <> Pos Nil /\ Z.to_int z <> Neg Nil).
  { intros [|p|p]; simpl; split; try discriminate;
      intros [= E']; exact (DecimalPos.Unsigned.to_uint_nonnil p E'). }
  apply DecimalZ.to_int_inj.
  pose proof (NilZero.isi (Z.to_int a) (proj1 (N a)) (proj2 (N a))) as Ia.
  pose proof (NilZero.isi (Z.to_int b) (proj1 (N b)) (proj2 (N b))) as Ib.
  rewrite E in Ia. congruence.
Qed.

Lemma int_raises (s : string) (e : exception) : int s = Raise e -> e = ValueError.
Proof.
  unfold int.
  destruct (match strip s with
            | String "-" r => (true, r)
            | String "+" r => (false, r)
            | _ => (false, strip s)
            end) as [neg body].
  destruct (int_digits 0 false body); congruence.
Qed.

Lemma build_label_unfold (uid : string) :
  _build_label uid
  = (n <- int (speaker_digits uid) ;; Ok ("speaker_" ++ str (n - 10001))).
Proof.
  unfold _build_label, speaker_digits.
  destruct (split "/" uid) as [|h t] eqn:E; [now destruct (split_nonempty "/" uid)|].
  now rewrite getitem_0.
Qed.

Lemma slice_from_short (n : nat) (s : string) :
  (String.length s <= n)%nat -> slice_from n s = "".
Proof.
  revert s. induction n as [|n IH]; intros [|c s] H; simpl in *; try reflexivity;
    [lia | apply IH; lia].
Qed.

Lemma speaker_digits_any_prefix (c1 c2 : ascii) (rest : string) :
  c1 <> "/"%char -> c2 <> "/"%char ->
  speaker_digits (String c1 (String c2 rest)) = speaker_digits ("id" ++ rest).
Proof.
  intros H1 H2. unfold speaker_digits. cbn [append split].
  destruct (Ascii.eqb_spec c1 "/"); [contradiction|].
  destruct (Ascii.eqb_spec c2 "/"); [contradiction|].
  change (Ascii.eqb "i" "/") with false. change (Ascii.eqb "d" "/") with false.
  cbv iota.
  destruct (split "/" rest) as [|h t] eqn:E; [now destruct (split_nonempty "/" rest)|].
  reflexivity.
Qed.

End RecordFacts.

(* ================================================================= *)
(** * More about results, dictionaries and the split file *)

Section MapMMore.
Context {A B : Type}.
Variable f : A -> result B.

Lemma mapM_app (l l' : list A) :
  mapM f (l ++ l')
  = (bs <- mapM f l ;; bs' <- mapM f l' ;; Ok (bs ++ bs')).
Proof.
  induction l as [|a l IH]; simpl.
  - now destruct (mapM f l').
  - destruct (f a) as [b|e]; simpl; [|reflexivity].
    rewrite IH. destruct (mapM f l) as [bs|e]; simpl; [|reflexivity].
    now destruct (mapM f l').
Qed.

Lemma mapM_raise_at (pre post : list A) (bs : list B) (a : A) (e : exception) :
  mapM f pre = Ok bs -> f a = Raise e -> mapM f (pre ++ a :: post) = Raise e.
Proof. intros Hp Ha. rewrite mapM_app, Hp. simpl. now rewrite Ha. Qed.

Lemma mapM_raise_inv (l : list A) (e : exception) :
  mapM f l = Raise e -> exists a, In a l /\ f a = Raise e.
Proof.
  induction l as [|a l IH]; simpl; [discriminate|].
  destruct (f a) as [b|e'] eqn:Ea; simpl.
  - destruct (mapM f l) as [bs|e'] eqn:El; simpl; [discriminate|].
    intros [= <-]. destruct (IH eq_refl) as (x & Hx & Ex). exists x. auto.
  - intros [= <-]. exists a. auto.
Qed.

Lemma mapM_all_ok (l : list A) :
  (forall a, In a l -> is_ok (f a) = true) -> exists bs, mapM f l = Ok bs.
Proof.
  induction l as [|a l IH]; intros H; simpl; [now exists []|].
  destruct (f a) as [b|e] eqn:Ea.
  - destruct IH as [bs Hbs]; [intros x Hx; apply H; now right|].
    rewrite Hbs. simpl. now exists (b :: bs).
  - specialize (H a (or_introl eq_refl)). rewrite Ea in H. discriminate.
Qed.
End MapMMore.

Module DictFacts2.

Import Dict DictFacts.

Section WithValue.
Context {V : Type}.

Lemma of_items_snoc (kvs : list (string * V)) (k : string) (v : V) :
  of_items (kvs ++ [(k, v)]) = set (of_items kvs) k v.
Proof. unfold of_items. now rewrite fold_left_app. Qed.

(** A comprehension over items with distinct keys keeps every item. *)
Lemma of_items_get_nodup (kvs : list (string * V)) (k : string) (v : V) :
  NoDup (map fst kvs) -> In (k, v) kvs -> get (of_items kvs) k = Some v.
Proof.
  intros Hnd Hin.
  assert (Hk : In k (keys (of_items kvs)))
    by (apply of_items_keys; change k with (fst (k, v)); now apply in_map).
  apply in_keys_get in Hk as [v' Hv'].
  rewrite Hv'. f_equal.
  apply of_items_get in Hv'.
  clear - Hnd Hin Hv'. induction kvs as [|[k0 v0] kvs IH]; [contradiction|].
  simpl in Hnd. inversion Hnd as [|? ? Hnot Hnd']; subst.
  assert (Htail : forall u, In (k, u) kvs -> k0 <> k).
  { intros u Hu ->. apply Hnot. change k with (fst (k, u)). now apply in_map. }
  destruct Hin as [Hin|Hin], Hv' as [Hv'|Hv'].
  - congruence.
  - injection Hin as Hk _. now destruct (Htail _ Hv').
  - injection Hv' as Hk _. now destruct (Htail _ Hin).
  - now apply IH.
Qed.
End WithValue.

End DictFacts2.

Module ManifestFacts.

Import Py PyAux PyFacts VoxCeleb1SID CorpusAux CorpusAux2 CorpusFacts StringFacts.
Import RecordFacts.
Local Open Scope string_scope.

Lemma lstrip_all_space (s : string) : all_space s = true -> lstrip s = "".
Proof.
  induction s as [|c s IH]; simpl; [reflexivity|].
  intros H. apply andb_true_iff in H as [Hc Hs]. now rewrite Hc, IH.
Qed.

Lemma fields_blank (line : string) : all_space line = true -> fields line = [""].
Proof. intros H. unfold fields, strip. now rewrite lstrip_all_space. Qed.

(** What the comprehension of lines 61-69 does with one line. *)
Lemma standard_usage_step (lines : list string) :
  _get_standard_usage lines
  = (items <- mapM (fun line =>
                      match fields line with
                      | [s; uid] =>
                          code <- int s ;; name <- code2split code ;; Ok (uid, name)
                      | _ => Raise ValueError
                      end) lines ;;
     Ok (Dict.of_items items)).
Proof.
  unfold _get_standard_usage. f_equal.
  induction lines as [|line lines IH]; [reflexivity|].
  cbn [map mapM]. unfold fields at 1. now rewrite IH.
Qed.

Lemma standard_usage_snoc (lines : list string) (d : Dict.t string)
    (line s uid : string) (code : Z) (name : string) :
  _get_standard_usage lines = Ok d ->
  fields line = [s; uid] ->
  int s = Ok code ->
  code2split code = Ok name ->
  _get_standard_usage (lines ++ [line]) = Ok (Dict.set d uid name).
Proof.
  rewrite !standard_usage_step. intros Hd Hf Hi Hc.
  rewrite mapM_app.
  destruct (mapM _ lines) as [items|]; simpl in *; [|discriminate].
  injection Hd as <-. rewrite Hf, Hi. simpl. rewrite Hc. simpl.
  now rewrite DictFacts2.of_items_snoc.
Qed.

Lemma standard_usage_raise_at (pre post : list string) (d : Dict.t string)
    (line : string) (e : exception) :
  _get_standard_usage pre = Ok d ->
  match fields line with
  | [s; uid] => code <- int s ;; name <- code2split code ;; Ok (uid, name)
  | _ => Raise ValueError
  end = Raise e ->
  _get_standard_usage (pre ++ line :: post) = Raise e.
Proof.
  rewrite !standard_usage_step. intros Hd He.
  destruct (mapM _ pre) as [items|] eqn:E; simpl in Hd; [|discriminate].
  now rewrite (@mapM_raise_at _ _ _ pre post items line e E He).
Qed.

Lemma standard_usage_raises (lines : list string) (e : exception) :
  _get_standard_usage lines = Raise e -> e = ValueError \/ e = IndexError.
Proof.
  rewrite standard_usage_step.
  destruct (mapM _ lines) as [items|e'] eqn:E; simpl; [discriminate|].
  intros [= <-]. apply mapM_raise_inv in E as (line & _ & El).
  destruct (fields line) as [|s [|uid [|? ?]]]; try (injection El as <-; auto).
  destruct (int s) as [code|e''] eqn:Ei; simpl in El.
  - destruct (code2split code) as [name|e''] eqn:Ec; simpl in El; [discriminate|].
    injection El as <-. rewrite code2split_cases in Ec.
    repeat match type of Ec with
           | (if ?b then _ else _) = _ => destruct b
           end; try discriminate.
    injection Ec as <-. auto.
  - injection El as <-. left. exact (int_raises _ Ei).
Qed.

End ManifestFacts.

(* ================================================================= *)
(** * More about the constructor *)

Module InitFacts.

Import Py PyAux PyFacts VoxCeleb1SID CorpusAux CorpusAux2 CorpusFacts CorpusClaims.
Import StringFacts RecordFacts ManifestFacts VoxCeleb1.
Local Open Scope string_scope.

(** ** Sorting *)

Lemma insert_sorted_perm (x : string) (l : list string) :
  Permutation (insert_sorted x l) (x :: l).
Proof.
  induction l as [|y l IH]; simpl; [reflexivity|].
  destruct (String.leb x y); [reflexivity|].
  rewrite IH. apply perm_swap.
Qed.

Lemma sorted_perm (l : list string) : Permutation (sorted l) l.
Proof.
  induction l as [|x l IH]; simpl; [reflexivity|].
  now rewrite insert_sorted_perm, IH.
Qed.

Lemma sorted_nodup (l : list string) : NoDup l -> NoDup (sorted l).
Proof. intros H. exact (Permutation_NoDup (Permutation_sym (sorted_perm l)) H). Qed.

(** ** The search *)

Lemma find_wav_inv (glob : string -> list string) (uid : string)
    (item : string * string) :
  find_wav_with_uid glob uid = Ok item ->
  glob ("*/wav/" ++ uid) = [snd item] /\ fst item = uid.
Proof.
  unfold find_wav_with_uid.
  destruct (glob _) as [|w [|w' l]]; cbn [List.length Nat.eqb]; try discriminate.
  rewrite getitem_0. cbn [bind]. intros [= <-]. auto.
Qed.

Lemma search_wavs_get (glob : string -> list string) (uids : list string)
    (m : Dict.t string) :
  search_wavs glob uids = Ok m ->
  NoDup uids ->
  forall uid, In uid uids ->
    exists wav, glob ("*/wav/" ++ uid) = [wav] /\ Dict.get m uid = Some wav.
Proof.
  unfold search_wavs.
  destruct (mapM (find_wav_with_uid glob) uids) as [items|] eqn:E; simpl; [|discriminate].
  intros [= <-] Hnd uid Hin.
  pose proof (mapM_ok_inv _ _ E) as F.
  assert (Hfst : map fst items = uids).
  { clear - F. induction F as [|u it us its Hu _ IH]; [reflexivity|].
    simpl. now rewrite (proj2 (find_wav_inv _ _ Hu)), IH. }
  destruct (mapM_ok_all _ _ E uid Hin) as ([u w] & Hf & Hitem).
  destruct (find_wav_inv _ _ Hf) as [Hg Hu]. simpl in Hg, Hu. subst u.
  exists w. split; [exact Hg|].
  apply DictFacts2.of_items_get_nodup; [now rewrite Hfst | exact Hitem].
Qed.

(** ** The entries *)

Lemma record_of_inv (m : Dict.t string) (uid : string) (item : string * entry) :
  record_of m uid = Ok item ->
  exists wav lab,
    Dict.get m uid = Some wav /\ _build_label uid = Ok lab
    /\ item = (record_id uid, {| wav_path := wav; label := lab |}).
Proof.
  unfold record_of, Dict.getitem.
  destruct (Dict.get m uid) as [wav|]; simpl; [|discriminate].
  destruct (_build_label uid) as [lab|]; simpl; [|discriminate].
  intros [= <-]. exists wav, lab. auto.
Qed.

Lemma record_of_raises (m : Dict.t string) (uid : string) (e : exception) :
  record_of m uid = Raise e ->
  (Dict.get m uid = None /\ e = KeyError)
  \/ (is_ok (_build_label uid) = false /\ e = ValueError).
Proof.
  unfold record_of, Dict.getitem.
  destruct (Dict.get m uid) as [wav|]; simpl; [|intros [= <-]; auto].
  rewrite build_label_unfold.
  destruct (int (speaker_digits uid)) as [n|e'] eqn:Ei; simpl; [discriminate|].
  intros [= <-]. right. split; [reflexivity | exact (int_raises _ Ei)].
Qed.

Lemma records_keys (m : Dict.t string) (uids : list string)
    (items : list (string * entry)) :
  mapM (record_of m) uids = Ok items -> map fst items = map record_id uids.
Proof.
  intros E. pose proof (mapM_ok_inv _ _ E) as F. clear E.
  induction F as [|u it us its Hu _ IH]; [reflexivity|].
  destruct (record_of_inv _ _ Hu) as (w & l & _ & _ & ->). simpl. now rewrite IH.
Qed.

(** ** The constructor, step by step *)

Lemma init_ok_full (glob : string -> list string)
    (store : list string -> option (Dict.t string))
    (lines : list string) (c : corpus) :
  __init__ glob store lines = Ok c ->
  exists uid2split m items,
    _get_standard_usage lines = Ok uid2split
    /\ _find_wavs_with_uids glob store (sorted (Dict.keys uid2split)) = Ok m
    /\ mapM (record_of m) (Dict.keys uid2split) = Ok items
    /\ all_data c = Dict.of_items items
    /\ forall name,
         lookup_list (_split2uids c) name
         = map (fun kv => record_id (fst kv))
               (filter (fun kv => String.eqb (snd kv) name) uid2split).
Proof.
  unfold __init__.
  destruct (_get_standard_usage lines) as [uid2split|] eqn:E; simpl; [|discriminate].
  destruct (_find_wavs_with_uids glob store _) as [m|] eqn:F; simpl; [|discriminate].
  change (fun uid : string =>
            wav <- Dict.getitem m uid ;;
            lab <- _build_label uid ;;
            Ok (record_id uid, {| wav_path := wav; label := lab |}))
    with (record_of m).
  destruct (mapM (record_of m) (Dict.keys uid2split)) as [items|] eqn:G; simpl;
    [|discriminate].
  intros Hc. injection Hc as <-. exists uid2split, m, items.
  split; [reflexivity|]. split; [exact F|]. split; [exact G|]. split; [reflexivity|].
  intros name. cbn [_split2uids]. now rewrite lookup_split2uids.
Qed.

Lemma split_names (lines : list string) (uid2split : Dict.t string) :
  _get_standard_usage lines = Ok uid2split ->
  NoDup (Dict.keys uid2split)
  /\ Forall (fun kv => snd kv = "train" \/ snd kv = "valid" \/ snd kv = "test")
            uid2split.
Proof.
  intros Hu. destruct (standard_usage_sound _ Hu) as (Hnd & _ & Hsrc).
  split; [exact Hnd|]. apply Forall_forall. intros [uid name] Hin.
  pose proof (DictFacts.in_get _ _ _ Hnd Hin) as Hg.
  destruct (Hsrc _ _ Hg) as (_ & _ & code & _ & _ & _ & Hc).
  exact (code2split_names _ Hc).
Qed.

Lemma filter_three (d : Dict.t string) :
  Forall (fun kv => snd kv = "train" \/ snd kv = "valid" \/ snd kv = "test") d ->
  (List.length (filter (fun kv => String.eqb (snd kv) "train") d)
   + List.length (filter (fun kv => String.eqb (snd kv) "valid") d)
   + List.length (filter (fun kv => String.eqb (snd kv) "test") d))%nat
  = List.length d.
Proof.
  induction 1 as [|[uid name] d Hn _ IH]; [reflexivity|].
  cbn [filter snd]. simpl in Hn.
  destruct Hn as [->|[->| ->]]; cbn [String.eqb Ascii.eqb Bool.eqb andb List.length];
    cbn [List.length]; lia.
Qed.

Lemma split_ids_cover (uid2split : Dict.t string) (id : string) :
  NoDup (Dict.keys uid2split) ->
  Forall (fun kv => snd kv = "train" \/ snd kv = "valid" \/ snd kv = "test")
         uid2split ->
  In id (map (fun kv => record_id (fst kv))
             (filter (fun kv => String.eqb (snd kv) "train") uid2split)
         ++ map (fun kv => record_id (fst kv))
              (filter (fun kv => String.eqb (snd kv) "valid") uid2split)
         ++ map (fun kv => record_id (fst kv))
              (filter (fun kv => String.eqb (snd kv) "test") uid2split))%list
  <-> In id (map record_id (Dict.keys uid2split)).
Proof.
  intros Hnd Hn. rewrite !in_app_iff, !in_map_iff. split.
  - intros [A|[A|A]]; destruct A as ([uid name] & <- & Hin);
      apply filter_In in Hin as [Hin _]; exists uid;
      (split; [reflexivity | change uid with (fst (uid, name)); now apply in_map]).
  - intros (uid & <- & Hin). unfold Dict.keys in Hin.
    apply in_map_iff in Hin as ([u name] & Hu & Hin). simpl in Hu. subst u.
    pose proof (proj1 (Forall_forall _ _) Hn _ Hin) as Hname. simpl in Hname.
    destruct Hname as [->|[->| ->]]; [left | right; left | right; right];
      eexists; (split; [|apply filter_In; split; [exact Hin|]]); reflexivity.
Qed.

End InitFacts.

Module InitFacts2.

Import Py PyAux PyFacts VoxCeleb1SID CorpusAux CorpusAux2 CorpusFacts CorpusClaims.
Import StringFacts RecordFacts ManifestFacts VoxCeleb1 InitFacts.
Local Open Scope string_scope.

Lemma filter_three_perm (d : Dict.t string) :
  Forall (fun kv => snd kv = "train" \/ snd kv = "valid" \/ snd kv = "test") d ->
  Permutation
    (filter (fun kv => String.eqb (snd kv) "train") d
     ++ filter (fun kv => String.eqb (snd kv) "valid") d
     ++ filter (fun kv => String.eqb (snd kv) "test") d)%list
    d.
Proof.
  induction 1 as [|[uid name] d Hn _ IH]; [reflexivity|].
  cbn [filter snd]. simpl in Hn.
  destruct Hn as [->|[->| ->]]; cbn [String.eqb Ascii.eqb Bool.eqb andb].
  - rewrite <- app_comm_cons. now apply perm_skip.
  - rewrite <- app_comm_cons. symmetry. apply Permutation_cons_app. now symmetry.
  - rewrite app_assoc. symmetry. apply Permutation_cons_app.
    rewrite <- app_assoc. now symmetry.
Qed.

Lemma split_lists_perm (glob : string -> list string)
    (store : list string -> option (Dict.t string))
    (lines : list string) (c : corpus) (uid2split : Dict.t string) :
  __init__ glob store lines = Ok c ->
  _get_standard_usage lines = Ok uid2split ->
  Permutation
    (lookup_list (_split2uids c) "train"
     ++ lookup_list (_split2uids c) "valid"
     ++ lookup_list (_split2uids c) "test")%list
    (map record_id (Dict.keys uid2split)).
Proof.
  intros Hc Hu.
  destruct (init_ok_full _ _ _ Hc) as (d & m & items & Hd & _ & _ & _ & Hl).
  rewrite Hu in Hd. injection Hd as <-.
  rewrite !Hl, <- !map_app.
  unfold Dict.keys. rewrite (map_map fst record_id).
  apply Permutation_map, filter_three_perm.
  exact (proj2 (split_names _ Hu)).
Qed.

Lemma nodup_map_inj_on {A B : Type} (f : A -> B) (l : list A) :
  (forall a b, In a l -> In b l -> f a = f b -> a = b) ->
  NoDup l -> NoDup (map f l).
Proof.
  intros Hinj. induction 1 as [|a l Hnot Hnd IH]; simpl; constructor.
  - intros Hin. apply in_map_iff in Hin as (b & E & Hb).
    assert (b = a) by (apply Hinj; [now right | now left | exact E]).
    subst b. contradiction.
  - apply IH. intros x y Hx Hy. apply Hinj; now right.
Qed.

Lemma voxceleb_injective (uids : list string) :
  Forall voxceleb_uid uids -> record_id_injective uids.
Proof.
  intros F u v Hu Hv. apply voxceleb_record_id_inj.
  - exact (proj1 (Forall_forall _ _) F u Hu).
  - exact (proj1 (Forall_forall _ _) F v Hv).
Qed.

End InitFacts2.

(* ================================================================= *)
(** * More about the scoring head *)

Module ScoreFacts.

Import Torch BatchAux ScoreAux TorchFacts BatchFacts ModelFacts ShapeFacts.
Local Open Scope R_scope.

(** ** The linear layer and sums *)

Lemma dot_nil_r (w : list R) : dot w [] = 0.
Proof. now destruct w. Qed.

Lemma dot_cons (a : R) (w : list R) (b : R) (v : list R) :
  dot (a :: w) (b :: v) = a * b + dot w v.
Proof. reflexivity. Qed.


Lemma dot_zeros (w : list R) (n : nat) : dot w (repeat 0 n) = 0.
Proof.
  revert n. induction w as [|u w IH]; intros [|n]; cbn [repeat];
    rewrite ?dot_nil_r, ?dot_cons; try reflexivity.
  rewrite IH. lra.
Qed.







(** ** Weighted means *)




(** ** The attention score as a weighted mean of frame scores *)


End ScoreFacts.

Module ScoreFacts2.

Import Torch BatchAux ScoreAux TorchFacts BatchFacts ModelFacts ShapeFacts ScoreFacts.
Local Open Scope R_scope.

(** ** [forward] on a batch, sequence by sequence *)

Lemma forward_data (m : Model.t) (N T H : nat) (x : batch) :
  model_wf H m ->
  batch_wf N T H x ->
  exists out,
    Model.forward m (of_batch N T H x) = Ok out
    /\ data out = map (fun seq => clipped m (seq_score m H seq)) x.
Proof.
  intros [Hl Hw] Hx. unfold Model.forward, seq_score, clipped.
  destruct (Model.pooling m) as [p|] eqn:Hp.
  - rewrite (raw_score_attention Hx _ Hp Hw Hl). cbn [bind].
    eexists. split; [reflexivity|]. rewrite data_squeeze_last.
    destruct (Model.clipping m); cbn [map_data data]; now rewrite ?map_map.
  - rewrite (raw_score_mean Hx _ Hp Hl). cbn [bind].
    eexists. split; [reflexivity|]. rewrite data_squeeze_last.
    destruct (Model.clipping m); cbn [map_data data]; now rewrite ?map_map.
Qed.

Lemma batch_wf_app (N1 N2 T H : nat) (x y : batch) :
  batch_wf N1 T H x -> batch_wf N2 T H y -> batch_wf (N1 + N2) T H (x ++ y).
Proof.
  intros [Lx Fx] [Ly Fy]. split.
  - rewrite length_app. congruence.
  - apply Forall_app. now split.
Qed.

(** ** Clipping *)




(** ** Scores of particular sequences *)







(** ** A frame of zeros at the end of a sequence *)

Lemma logit_zeros (l : Linear) (H : nat) : logit l (repeat 0 H) = bias l.
Proof. unfold logit. rewrite dot_zeros. lra. Qed.





End ScoreFacts2.

Module ScoreProperties.

Import Torch BatchAux ScoreAux TorchFacts BatchFacts ModelFacts ShapeFacts.
Import ScoreFacts ScoreFacts2.
Local Open Scope R_scope.

(** X1. On a batch of size (N, T, H) [Model.forward] returns one value
    per sequence, computed from that sequence alone: the mean over its
    frames of [linear(frame)] under mean pooling, [linear] of the
    softmax-weighted sum of its frames under attention pooling, and
    [tanh(s) * 2 + 3] of that score when clipping is enabled. *)
Theorem forward_scores_each_sequence (m : Model.t) (N T H : nat) (x : batch) :
  model_wf H m ->
  batch_wf N T H x ->
  exists out,
    Model.forward m (of_batch N T H x) = Ok out
    /\ data out
       = map (fun seq =>
                let s := match Model.pooling m with
                         | Some p =>
                             logit (Model.linear m)
                               (col_sums H
                                  (zip_with (fun frame c => scale c frame) seq
                                     (row_softmax
                                        (map (logit (SelfAttentionPooling.W p)) seq))))
                         | None => rmean (map (logit (Model.linear m)) seq)
                         end in
                if Model.clipping m then tanh s * 2 + 3 else s) x.
Proof.
  intros Hm Hx. destruct (forward_data Hm Hx) as (out & E & D).
  exists out. split; [exact E|]. rewrite D.
  apply map_ext. intros seq. unfold clipped, seq_score.
  now destruct (Model.pooling m).
Qed.

Lemma forward_scores_each_sequence_witness :
  model_wf 1 (mean_model 1 false)
  /\ batch_wf 1 2 1 [[[1]; [2]]]
  /\ exists out,
       Model.forward (mean_model 1 false) (of_batch 1 2 1 [[[1]; [2]]]) = Ok out
       /\ data out = [rmean [logit (ones_layer 1) [1]; logit (ones_layer 1) [2]]].
Proof.
  assert (M : model_wf 1 (mean_model 1 false)) by (split; reflexivity).
  assert (W : batch_wf 1 2 1 [[[1]; [2]]]) by (split; repeat constructor).
  split; [exact M|]. split; [exact W|].
  exact (forward_scores_each_sequence M W).
Defined.

(** X2. [SelfAttentionPooling.forward] on a batch of size (N, T, H)
    returns a tensor of size (N, H), as its docstring says: row [n] is
    the sum over the frames of sequence [n] of the frame times its
    softmax weight, a vector of [H] entries. *)
Theorem pooling_returns_utterance_vectors (p : SelfAttentionPooling.t)
    (N T H : nat) (x : batch) :
  batch_wf N T H x ->
  in_features (SelfAttentionPooling.W p) = H ->
  SelfAttentionPooling.forward p (of_batch N T H x)
  = Ok (Tensor [N; H]
          (List.concat
             (map (fun seq =>
                     col_sums H
                       (zip_with (fun frame c => scale c frame) seq
                          (row_softmax (map (logit (SelfAttentionPooling.W p)) seq))))
                  x)))
  /\ Forall (fun seq =>
               List.length
                 (col_sums H
                    (zip_with (fun frame c => scale c frame) seq
                       (row_softmax (map (logit (SelfAttentionPooling.W p)) seq))))
               = H) x.
Proof.
  intros Hx Hp. split; [exact (pooling_of_batch Hx p Hp)|].
  apply Forall_forall. intros seq Hin.
  exact (length_pooled (SelfAttentionPooling.W p) (proj2 (wf_seq Hx seq Hin))).
Qed.

Lemma pooling_returns_utterance_vectors_witness :
  batch_wf 1 2 1 [[[0]; [1]]]
  /\ in_features (ones_layer 1) = 1%nat
  /\ exists d,
       SelfAttentionPooling.forward {| SelfAttentionPooling.W := ones_layer 1 |}
         (of_batch 1 2 1 [[[0]; [1]]])
       = Ok (Tensor [1; 1]%nat d).
Proof.
  assert (W : batch_wf 1 2 1 [[[0]; [1]]]) by (split; repeat constructor).
  split; [exact W|]. split; [reflexivity|].
  eexists.
  exact (proj1 (@pooling_returns_utterance_vectors
                  {| SelfAttentionPooling.W := ones_layer 1 |} 1 2 1 _ W eq_refl)).
Defined.





(** X5. The score of a sequence does not depend on the other
    sequences of its batch: the scores of two batches put together are
    the scores of the first followed by the scores of the second. *)
Theorem scores_of_joined_batches (m : Model.t) (N1 N2 T H : nat) (x y : batch) :
  model_wf H m ->
  batch_wf N1 T H x ->
  batch_wf N2 T H y ->
  exists out_x out_y out,
    Model.forward m (of_batch N1 T H x) = Ok out_x
    /\ Model.forward m (of_batch N2 T H y) = Ok out_y
    /\ Model.forward m (of_batch (N1 + N2) T H (x ++ y)) = Ok out
    /\ data out = (data out_x ++ data out_y)%list.
Proof.
  intros Hm Hx Hy.
  destruct (forward_data Hm Hx) as (ox & Ex & Dx).
  destruct (forward_data Hm Hy) as (oy & Ey & Dy).
  destruct (forward_data Hm (batch_wf_app Hx Hy)) as (o & E & D).
  exists ox, oy, o. repeat (split; [assumption|]).
  now rewrite D, Dx, Dy, map_app.
Qed.

Lemma scores_of_joined_batches_witness :
  model_wf 1 (attention_model 1 true)
  /\ batch_wf 1 2 1 [[[1]; [2]]]
  /\ batch_wf 2 2 1 [[[0]; [0]]; [[3]; [1]]]
  /\ exists out_x out_y out,
       Model.forward (attention_model 1 true) (of_batch 1 2 1 [[[1]; [2]]]) = Ok out_x
       /\ Model.forward (attention_model 1 true)
            (of_batch 2 2 1 [[[0]; [0]]; [[3]; [1]]]) = Ok out_y
       /\ Model.forward (attention_model 1 true)
            (of_batch 3 2 1 [[[1]; [2]]; [[0]; [0]]; [[3]; [1]]]) = Ok out
       /\ data out = (data out_x ++ data out_y)%list.
Proof.
  assert (M : model_wf 1 (attention_model 1 true)) by (split; reflexivity).
  assert (Wx : batch_wf 1 2 1 [[[1]; [2]]]) by (split; repeat constructor).
  assert (Wy : batch_wf 2 2 1 [[[0]; [0]]; [[3]; [1]]]) by (split; repeat constructor).
  split; [exact M|]. split; [exact Wx|]. split; [exact Wy|].
  exact (scores_of_joined_batches M Wx Wy).
Defined.






(** X9. Under attention pooling a batch of empty sequences ([T = 0])
    is scored without an error: the pooled vector of an empty sequence
    is zero, so every score is the bias of the linear layer (clipped
    when clipping is enabled). *)
Theorem attention_pooling_scores_empty_sequences (m : Model.t)
    (p : SelfAttentionPooling.t) (N H : nat) (x : batch) :
  Model.pooling m = Some p ->
  model_wf H m ->
  batch_wf N 0 H x ->
  exists out,
    Model.forward m (of_batch N 0 H x) = Ok out
    /\ data out
       = repeat (if Model.clipping m
                 then tanh (bias (Model.linear m)) * 2 + 3
                 else bias (Model.linear m)) N.
Proof.
  intros Hp Hm Hx. destruct (forward_data Hm Hx) as (out & E & D).
  exists out. split; [exact E|]. rewrite D.
  destruct Hx as [Hn F]. subst N. clear E D.
  induction x as [|seq x IH]; [reflexivity|].
  cbn [map List.length repeat]. rewrite (IH (Forall_inv_tail F)). f_equal.
  destruct (Forall_inv F) as [Hlen _].
  destruct seq; [|discriminate].
  unfold clipped, seq_score, attention_score, pooled. rewrite Hp.
  cbn [zip_with]. unfold col_sums. cbn [fold_right].
  rewrite logit_zeros. reflexivity.
Qed.

Lemma attention_pooling_scores_empty_sequences_witness :
  model_wf 3 (attention_model 3 false)
  /\ batch_wf 2 0 3 [[]; []]
  /\ exists out,
       Model.forward (attention_model 3 false) (of_batch 2 0 3 [[]; []]) = Ok out
       /\ data out = [0; 0].
Proof.
  assert (M : model_wf 3 (attention_model 3 false)) by (split; reflexivity).
  assert (W : batch_wf 2 0 3 [[]; []]) by (split; repeat constructor).
  split; [exact M|]. split; [exact W|].
  exact (@attention_pooling_scores_empty_sequences (attention_model 3 false) _ 2 3 _
           eq_refl M W).
Defined.

End ScoreProperties.

(* ================================================================= *)
(** * More properties of the corpus loader *)

Module CorpusProperties.

Import Py PyAux PyFacts VoxCeleb1SID CorpusAux CorpusAux2 CorpusFacts CorpusClaims.
Import StringFacts RecordFacts ManifestFacts VoxCeleb1 InitFacts InitFacts2.
Local Open Scope string_scope.

(** X10. When an identifier stands on several lines of the split file
    the last of them decides: a further line [<code> <uid>] sets the
    split of [uid] to that of its code and leaves the split of every
    other identifier as it was. *)
Theorem manifest_later_line_wins (lines : list string) (d : Dict.t string)
    (line s uid : string) (code : Z) (name : string) :
  _get_standard_usage lines = Ok d ->
  fields line = [s; uid] ->
  int s = Ok code ->
  code2split code = Ok name ->
  exists d',
    _get_standard_usage (lines ++ [line]) = Ok d'
    /\ Dict.get d' uid = Some name
    /\ forall other, other <> uid -> Dict.get d' other = Dict.get d other.
Proof.
  intros Hd Hf Hi Hc. exists (Dict.set d uid name).
  split; [exact (standard_usage_snoc lines line Hd Hf Hi Hc)|].
  split; [apply DictFacts.get_set_same|].
  intros other Hne. apply DictFacts.get_set_other. congruence.
Qed.

Lemma manifest_later_line_wins_witness :
  _get_standard_usage ["1 id10001/abc/00001.wav" ++ newline]
  = Ok [("id10001/abc/00001.wav", "train")]
  /\ exists d',
       _get_standard_usage ["1 id10001/abc/00001.wav" ++ newline;
                            "3 id10001/abc/00001.wav" ++ newline] = Ok d'
       /\ Dict.get d' "id10001/abc/00001.wav" = Some "test".
Proof.
  split; [reflexivity|].
  destruct (@manifest_later_line_wins
              ["1 id10001/abc/00001.wav" ++ newline]
              [("id10001/abc/00001.wav", "train")]
              ("3 id10001/abc/00001.wav" ++ newline) "3" "id10001/abc/00001.wav"
              3 "test" eq_refl eq_refl eq_refl eq_refl) as (d' & E & G & _).
  exists d'. split; [exact E | exact G].
Defined.

(** X11. A line of the split file that does not consist of exactly
    two fields separated by one space (a blank line, for one), or whose
    first field is not an integer, makes [_get_standard_usage] raise
    [ValueError]; a code outside -2..3 makes it raise [IndexError].
    Nothing is returned for the lines that were read before. *)
Theorem manifest_rejects_malformed_lines (pre post : list string)
    (d : Dict.t string) (line : string) :
  _get_standard_usage pre = Ok d ->
  (List.length (fields line) <> 2%nat ->
   _get_standard_usage (pre ++ line :: post) = Raise ValueError)
  /\ (all_space line = true ->
      _get_standard_usage (pre ++ line :: post) = Raise ValueError)
  /\ (forall s uid, fields line = [s; uid] -> is_ok (int s) = false ->
        _get_standard_usage (pre ++ line :: post) = Raise ValueError)
  /\ (forall s uid code, fields line = [s; uid] -> int s = Ok code ->
        (code <= -3 \/ 4 <= code)%Z ->
        _get_standard_usage (pre ++ line :: post) = Raise IndexError).
Proof.
  intros Hd.
  assert (L : List.length (fields line) <> 2%nat ->
              _get_standard_usage (pre ++ line :: post) = Raise ValueError).
  { intros Hlen. apply (standard_usage_raise_at pre post line Hd).
    destruct (fields line) as [|s [|uid [|? ?]]]; try reflexivity.
    now destruct Hlen. }
  split; [exact L|]. split; [|split].
  - intros Hs. apply L. now rewrite (fields_blank _ Hs).
  - intros s uid Hf Hi. apply (standard_usage_raise_at pre post line Hd). rewrite Hf.
    destruct (int s) as [code|e] eqn:E; [discriminate|].
    simpl. now rewrite (int_raises _ E).
  - intros s uid code Hf Hi Hc. apply (standard_usage_raise_at pre post line Hd).
    rewrite Hf, Hi. simpl. rewrite code2split_cases.
    repeat match goal with
           | |- context [(code =? ?c)%Z] =>
               replace (code =? c)%Z with false by (symmetry; apply Z.eqb_neq; lia)
           end.
    reflexivity.
Qed.

Lemma manifest_rejects_malformed_lines_witness :
  _get_standard_usage small_lines
  = Ok [("id10001/abc/00001.wav", "train"); ("id10050/xyz/00002.wav", "test")]
  /\ all_space newline = true
  /\ _get_standard_usage (small_lines ++ newline :: two_lines) = Raise ValueError.
Proof.
  split; [reflexivity|]. split; [reflexivity|].
  exact (proj1 (proj2 (@manifest_rejects_malformed_lines small_lines two_lines _
                         newline eq_refl)) eq_refl).
Defined.

(** X12. Labels tell speakers apart: two identifiers get the same
    label only if the numbers read from their speaker parts are
    equal. *)
Theorem labels_distinguish_speakers (uid1 uid2 lab : string) :
  _build_label uid1 = Ok lab ->
  _build_label uid2 = Ok lab ->
  exists n, int (speaker_digits uid1) = Ok n /\ int (speaker_digits uid2) = Ok n.
Proof.
  rewrite !build_label_unfold.
  destruct (int (speaker_digits uid1)) as [a|]; simpl; [|discriminate].
  destruct (int (speaker_digits uid2)) as [b|]; simpl; [|discriminate].
  intros [= <-] [= E]. apply str_inj in E.
  exists a. split; [reflexivity|]. f_equal. lia.
Qed.

Lemma labels_distinguish_speakers_witness :
  _build_label "id10001/abc/00001.wav" = Ok "speaker_0"
  /\ _build_label "id010001/xyz/00002.wav" = Ok "speaker_0"
  /\ exists n, int (speaker_digits "id10001/abc/00001.wav") = Ok n
               /\ int (speaker_digits "id010001/xyz/00002.wav") = Ok n.
Proof.
  split; [reflexivity|]. split; [reflexivity|].
  exact (@labels_distinguish_speakers "id10001/abc/00001.wav"
           "id010001/xyz/00002.wav" "speaker_0" eq_refl eq_refl).
Defined.

(** X13. [_build_label] raises nothing but [ValueError]; it raises it
    when the first component of the identifier has no more than two
    characters.  The two leading characters are dropped without a look
    at them: any two characters give the label that ["id"] gives. *)
Theorem build_label_prefix_and_errors :
  (forall uid e, _build_label uid = Raise e -> e = ValueError)
  /\ (forall uid,
        (String.length (hd EmptyString (split "/" uid)) <= 2)%nat ->
        _build_label uid = Raise ValueError)
  /\ (forall (c1 c2 : ascii) rest,
        c1 <> "/"%char -> c2 <> "/"%char ->
        _build_label (String c1 (String c2 rest)) = _build_label ("id" ++ rest)).
Proof.
  split; [|split].
  - intros uid e. rewrite build_label_unfold.
    destruct (int (speaker_digits uid)) as [n|e'] eqn:E; simpl; [discriminate|].
    intros [= <-]. exact (int_raises _ E).
  - intros uid Hlen. rewrite build_label_unfold. unfold speaker_digits.
    now rewrite (slice_from_short _ Hlen).
  - intros c1 c2 rest H1 H2.
    now rewrite !build_label_unfold, (speaker_digits_any_prefix rest H1 H2).
Qed.

Lemma build_label_prefix_and_errors_witness :
  (String.length (hd EmptyString (split "/" "id/abc/00001.wav")) <= 2)%nat
  /\ _build_label "id/abc/00001.wav" = Raise ValueError
  /\ _build_label "xy10001/abc/00001.wav" = _build_label "id10001/abc/00001.wav".
Proof.
  split; [simpl; lia|]. split.
  - apply (proj1 (proj2 build_label_prefix_and_errors)). simpl. lia.
  - apply (proj2 (proj2 build_label_prefix_and_errors) "x"%char "y"%char);
      discriminate.
Defined.

(** X14. The record id of an identifier never holds a ['/'].  For an
    identifier that ends in a suffix [.ext] it is the identifier
    without that suffix, with every ['/'] turned into ['-']; for an
    identifier without a dot it is the identifier with every ['/']
    turned into ['-']. *)
Theorem record_id_shape :
  (forall uid, has_char "/" (record_id uid) = false)
  /\ (forall body ext,
        body <> "" -> ext <> "" -> has_char "." ext = false ->
        record_id (body ++ "." ++ ext) = replace "/" "-" body)
  /\ (forall uid, has_char "." uid = false -> record_id uid = replace "/" "-" uid).
Proof.
  split; [exact record_id_no_slash|]. split.
  - intros body ext. exact (@record_id_suffix body ext).
  - intros uid Hd. unfold record_id.
    assert (Hd' : has_char "." (replace "/" "-" uid) = false)
      by (apply has_char_replace_other; [discriminate | assumption]).
    now rewrite (path_name_nonempty_no_dot _ Hd'), (stem_without_dot _ Hd').
Qed.

Lemma record_id_shape_witness :
  "id10001/abc/00001" <> "" /\ "wav" <> "" /\ has_char "." "wav" = false
  /\ record_id "id10001/abc/00001.wav" = "id10001-abc-00001".
Proof.
  split; [discriminate|]. split; [discriminate|]. split; [reflexivity|].
  apply (proj1 (proj2 record_id_shape) "id10001/abc/00001" "wav");
    [discriminate | discriminate | reflexivity].
Defined.

(** X15. For a split file whose identifiers all have the form
    [<speaker>/<video>/<utterance>.wav], with no ['-'] in the speaker
    and in the utterance, distinct identifiers have distinct record
    ids, and after a successful construction no id stands twice in the
    train, valid and test lists taken together. *)
Theorem voxceleb_manifest_ids_distinct (glob : string -> list string)
    (store : list string -> option (Dict.t string))
    (lines : list string) (c : corpus) (uid2split : Dict.t string) :
  __init__ glob store lines = Ok c ->
  _get_standard_usage lines = Ok uid2split ->
  Forall voxceleb_uid (Dict.keys uid2split) ->
  record_id_injective (Dict.keys uid2split)
  /\ let '(train, valid, test) := data_split_ids c in
     NoDup (train ++ valid ++ test)%list.
Proof.
  intros Hc Hu F. pose proof (voxceleb_injective F) as Hinj.
  split; [exact Hinj|]. unfold data_split_ids.
  apply (Permutation_NoDup (Permutation_sym (split_lists_perm _ _ _ Hc Hu))).
  apply nodup_map_inj_on; [exact Hinj|].
  exact (proj1 (split_names _ Hu)).
Qed.

Lemma voxceleb_manifest_ids_distinct_witness :
  exists c,
    __init__ small_files empty_store small_lines = Ok c
    /\ Forall voxceleb_uid ["id10001/abc/00001.wav"; "id10050/xyz/00002.wav"]
    /\ let '(train, valid, test) := data_split_ids c in
       NoDup (train ++ valid ++ test)%list.
Proof.
  assert (F : Forall voxceleb_uid ["id10001/abc/00001.wav"; "id10050/xyz/00002.wav"]).
  { constructor; [exists "id10001", "abc", "00001" | constructor;
                  [exists "id10050", "xyz", "00002" | constructor]];
      repeat (split; [reflexivity|]); reflexivity. }
  eexists. split; [vm_compute; reflexivity|]. split; [exact F|].
  exact (proj2 (@voxceleb_manifest_ids_distinct small_files empty_store small_lines
                  _ _ eq_refl eq_refl F)).
Defined.

(** X16. After a successful construction the train, valid and test
    lists taken together are a rearrangement of the record ids of the
    identifiers of the split file: every identifier contributes
    exactly one entry, so the three lists have as many entries as the
    split file has distinct identifiers. *)
Theorem split_lists_rearrange_manifest (glob : string -> list string)
    (store : list string -> option (Dict.t string))
    (lines : list string) (c : corpus) (uid2split : Dict.t string) :
  __init__ glob store lines = Ok c ->
  _get_standard_usage lines = Ok uid2split ->
  let '(train, valid, test) := data_split_ids c in
  Permutation (train ++ valid ++ test)%list (map record_id (Dict.keys uid2split))
  /\ (List.length train + List.length valid + List.length test)%nat
     = List.length (Dict.keys uid2split).
Proof.
  intros Hc Hu. unfold data_split_ids.
  pose proof (split_lists_perm _ _ _ Hc Hu) as P. split; [exact P|].
  apply Permutation_length in P.
  rewrite !length_app, length_map in P. lia.
Qed.

Lemma split_lists_rearrange_manifest_witness :
  exists c,
    __init__ two_files empty_store two_lines = Ok c
    /\ let '(train, valid, test) := data_split_ids c in
       (List.length train + List.length valid + List.length test)%nat = 2%nat.
Proof.
  eexists. split; [vm_compute; reflexivity|].
  exact (proj2 (@split_lists_rearrange_manifest two_files empty_store two_lines
                  _ _ eq_refl eq_refl)).
Defined.

(** X17. After a successful construction the ids of the train, valid
    and test lists are exactly the keys of [all_data]: every id of a
    split can be looked up, and every record belongs to a split. *)
Theorem split_ids_are_data_keys (glob : string -> list string)
    (store : list string -> option (Dict.t string))
    (lines : list string) (c : corpus) :
  __init__ glob store lines = Ok c ->
  let '(train, valid, test) := data_split_ids c in
  forall id, In id (train ++ valid ++ test)%list <-> In id (Dict.keys (all_data c)).
Proof.
  intros Hc. unfold data_split_ids. intros id.
  destruct (init_ok_full _ _ _ Hc) as (d & m & items & Hd & _ & Hi & Ha & _).
  pose proof (split_lists_perm _ _ _ Hc Hd) as P.
  rewrite Ha, DictFacts.of_items_keys, (records_keys _ _ Hi).
  split; intros Hin.
  - exact (Permutation_in _ P Hin).
  - exact (Permutation_in _ (Permutation_sym P) Hin).
Qed.

Lemma split_ids_are_data_keys_witness :
  exists c,
    __init__ small_files empty_store small_lines = Ok c
    /\ (In "id10050-xyz-00002" (snd (data_split_ids c))
        <-> In "id10050-xyz-00002" (Dict.keys (all_data c))).
Proof.
  eexists. split; [vm_compute; reflexivity|].
  pose proof (@split_ids_are_data_keys small_files empty_store small_lines _ eq_refl)
    as K.
  cbv beta iota zeta delta [data_split_ids] in K.
  split; intros _; [|vm_compute; auto].
  apply (proj1 (K "id10050-xyz-00002")). vm_compute. auto.
Defined.

(** X18. After a successful construction (the cache holding nothing
    but results of the search in the present dataset) and when
    distinct identifiers have distinct record ids, [all_data] holds
    for every identifier of the split file, under its record id, the
    one file that the search found for it and the label built from
    it. *)
Theorem data_entry_of_identifier (glob : string -> list string)
    (store : list string -> option (Dict.t string))
    (lines : list string) (c : corpus) (uid2split : Dict.t string) :
  cache_sound glob store ->
  __init__ glob store lines = Ok c ->
  _get_standard_usage lines = Ok uid2split ->
  record_id_injective (Dict.keys uid2split) ->
  forall uid, In uid (Dict.keys uid2split) ->
    exists wav lab,
      glob ("*/wav/" ++ uid) = [wav]
      /\ _build_label uid = Ok lab
      /\ Dict.getitem (all_data c) (record_id uid)
         = Ok {| wav_path := wav; label := lab |}.
Proof.
  intros Hs Hc Hu Hinj uid Hin.
  destruct (init_ok_full _ _ _ Hc) as (d & m & items & Hd & Hf & Hi & Ha & _).
  rewrite Hu in Hd. injection Hd as <-.
  pose proof (proj1 (split_names _ Hu)) as Hnd.
  rewrite (cache_transparent _ Hs) in Hf.
  destruct (search_wavs_get _ Hf (sorted_nodup Hnd) uid (proj2 (sorted_in _ _) Hin))
    as (wav & Hg & Hm).
  destruct (mapM_ok_all _ _ Hi uid Hin) as (item & Hr & Hitem).
  destruct (record_of_inv _ _ Hr) as (wav' & lab & Hm' & Hl & ->).
  rewrite Hm in Hm'. injection Hm' as <-.
  exists wav, lab. split; [exact Hg|]. split; [exact Hl|].
  rewrite Ha. unfold Dict.getitem.
  assert (Hk : NoDup (map fst items))
    by (rewrite (records_keys _ _ Hi); now apply nodup_map_inj_on).
  now rewrite (DictFacts2.of_items_get_nodup items _ _ Hk Hitem).
Qed.

Lemma data_entry_of_identifier_witness :
  exists c,
    cache_sound small_files empty_store
    /\ __init__ small_files empty_store small_lines = Ok c
    /\ Dict.getitem (all_data c) "id10050-xyz-00002"
       = Ok {| wav_path := "/data/dev/wav/id10050/xyz/00002.wav";
               label := "speaker_49" |}.
Proof.
  eexists. split; [apply empty_store_sound|].
  split; [vm_compute; reflexivity|].
  assert (F : Forall voxceleb_uid ["id10001/abc/00001.wav"; "id10050/xyz/00002.wav"]).
  { constructor; [exists "id10001", "abc", "00001" | constructor;
                  [exists "id10050", "xyz", "00002" | constructor]];
      repeat (split; [reflexivity|]); reflexivity. }
  destruct (@data_entry_of_identifier small_files empty_store small_lines _ _
              (empty_store_sound small_files) eq_refl eq_refl
              (voxceleb_injective F) "id10050/xyz/00002.wav")
    as (wav & lab & Hg & Hl & Hd); [right; now left|].
  vm_compute in Hg. injection Hg as <-.
  vm_compute in Hl. injection Hl as <-.
  exact Hd.
Defined.

(** X19. With a cache that holds nothing but results of the search in
    the present dataset, the constructor returns a corpus exactly when
    the split file is read without error, every identifier has exactly
    one matching file and a label can be built for every identifier.
    When it raises, it raises [ValueError], [IndexError] or
    [AssertionError]. *)
Theorem constructor_succeeds_iff (glob : string -> list string)
    (store : list string -> option (Dict.t string)) (lines : list string) :
  cache_sound glob store ->
  ((exists c, __init__ glob store lines = Ok c)
   <-> exists uid2split,
         _get_standard_usage lines = Ok uid2split
         /\ (forall uid, In uid (Dict.keys uid2split) ->
               exists wav, glob ("*/wav/" ++ uid) = [wav])
         /\ (forall uid, In uid (Dict.keys uid2split) ->
               is_ok (_build_label uid) = true))
  /\ (forall e, __init__ glob store lines = Raise e ->
        e = ValueError \/ e = IndexError \/ e = AssertionError).
Proof.
  intros Hs.
  assert (R : forall uid2split m,
             _get_standard_usage lines = Ok uid2split ->
             search_wavs glob (sorted (Dict.keys uid2split)) = Ok m ->
             forall uid, In uid (Dict.keys uid2split) ->
               exists wav, glob ("*/wav/" ++ uid) = [wav] /\ Dict.get m uid = Some wav).
  { intros d m Hd Hm uid Hin.
    exact (search_wavs_get _ Hm (sorted_nodup (proj1 (split_names _ Hd))) uid
             (proj2 (sorted_in _ _) Hin)). }
  split; [split|].
  - intros [c Hc].
    destruct (init_ok_full _ _ _ Hc) as (d & m & items & Hd & Hf & Hi & _).
    rewrite (cache_transparent _ Hs) in Hf.
    exists d. split; [exact Hd|]. split.
    + intros uid Hin. destruct (R _ _ Hd Hf uid Hin) as (wav & Hg & _). now exists wav.
    + intros uid Hin. destruct (mapM_ok_all _ _ Hi uid Hin) as (item & Hr & _).
      destruct (record_of_inv _ _ Hr) as (_ & lab & _ & Hl & _). now rewrite Hl.
  - intros (d & Hd & Hone & Hlab).
    destruct (@mapM_all_ok _ _ (find_wav_with_uid glob) (sorted (Dict.keys d)))
      as [found Hfound].
    { intros uid Hin. apply find_wav_ok, Hone. now apply sorted_in. }
    assert (Hm : search_wavs glob (sorted (Dict.keys d)) = Ok (Dict.of_items found))
      by (unfold search_wavs; now rewrite Hfound).
    destruct (@mapM_all_ok _ _ (record_of (Dict.of_items found)) (Dict.keys d))
      as [items Hitems].
    { intros uid Hin. destruct (R _ _ Hd Hm uid Hin) as (wav & _ & Hg).
      unfold record_of, Dict.getitem. rewrite Hg. cbn [bind].
      specialize (Hlab uid Hin). now destruct (_build_label uid). }
    eexists. unfold __init__. rewrite Hd. cbn [bind].
    rewrite (cache_transparent _ Hs), Hm. cbn [bind].
    change (fun uid : string =>
              wav <- Dict.getitem (Dict.of_items found) uid ;;
              lab <- _build_label uid ;;
              Ok (record_id uid, {| wav_path := wav; label := lab |}))
      with (record_of (Dict.of_items found)).
    rewrite Hitems. reflexivity.
  - intros e. unfold __init__.
    destruct (_get_standard_usage lines) as [d|e0] eqn:Hd; cbn [bind].
    + rewrite (cache_transparent _ Hs).
      destruct (search_wavs glob (sorted (Dict.keys d))) as [m|e1] eqn:Hm; cbn [bind].
      * change (fun uid : string =>
                  wav <- Dict.getitem m uid ;;
                  lab <- _build_label uid ;;
                  Ok (record_id uid, {| wav_path := wav; label := lab |}))
          with (record_of m).
        destruct (mapM (record_of m) (Dict.keys d)) as [items|e2] eqn:Hi; cbn [bind];
          [discriminate|].
        intros [= <-]. apply mapM_raise_inv in Hi as (uid & Hin & Hr).
        destruct (record_of_raises _ _ Hr) as [[Hnone _]|[_ ->]]; [|auto].
        destruct (R _ _ eq_refl Hm uid Hin) as (wav & _ & Hg). congruence.
      * intros [= <-]. unfold search_wavs in Hm.
        destruct (mapM (find_wav_with_uid glob) _) as [found|e2] eqn:Hf;
          cbn [bind] in Hm; [discriminate|].
        injection Hm as <-. apply mapM_raise_inv in Hf as (uid & _ & Hr).
        right; right. exact (find_wav_raises _ _ Hr).
    + intros [= <-]. destruct (standard_usage_raises _ Hd); auto.
Qed.

Lemma constructor_succeeds_iff_witness :
  cache_sound small_files empty_store
  /\ (exists c, __init__ small_files empty_store small_lines = Ok c)
  /\ exists uid2split,
       _get_standard_usage small_lines = Ok uid2split
       /\ (forall uid, In uid (Dict.keys uid2split) ->
             exists wav, small_files ("*/wav/" ++ uid) = [wav]).
Proof.
  split; [apply empty_store_sound|].
  assert (E : exists c, __init__ small_files empty_store small_lines = Ok c)
    by (eexists; vm_compute; reflexivity).
  split; [exact E|].
  destruct (proj1 (proj1 (@constructor_succeeds_iff small_files empty_store small_lines
                            (empty_store_sound small_files))) E)
    as (d & Hd & Hone & _).
  exists d. split; [exact Hd | exact Hone].
Defined.

End CorpusProperties.

(* ================================================================= *)
(** * Paths and the records of mini-VoxCeleb1 *)

Module PathFacts.

Import Py PyAux PyFacts StringFacts.
Local Open Scope string_scope.

Lemma split_sep (sep : ascii) (a b : string) :
  split sep (a ++ String sep b) = (split sep a ++ split sep b)%list.
Proof.
  induction a as [|c a IH]; simpl.
  - now rewrite Ascii.eqb_refl.
  - destruct (Ascii.eqb c sep); [now rewrite IH|].
    rewrite IH. destruct (split sep a) eqn:E; [now destruct (split_nonempty sep a)|].
    reflexivity.
Qed.

Lemma split_absent (sep : ascii) (s : string) :
  has_char sep s = false -> split sep s = [s].
Proof.
  intros H. rewrite <- (append_empty_r s) at 1.
  rewrite (@split_app sep s "" H). simpl. now rewrite append_empty_r.
Qed.

Lemma hd_split_first (sep : ascii) (a b : string) :
  has_char sep a = false -> hd EmptyString (split sep (a ++ String sep b)) = a.
Proof. intros H. now rewrite split_sep, (@split_absent sep a H). Qed.

Lemma hd_split_app (sep : ascii) (a b : string) :
  has_char sep a = true ->
  hd EmptyString (split sep (a ++ b)) = hd EmptyString (split sep a).
Proof.
  induction a as [|c a IH]; simpl; [discriminate|].
  destruct (Ascii.eqb c sep); simpl; [reflexivity|]. intros H.
  specialize (IH H).
  destruct (split sep (a ++ b)) eqn:E1; [now destruct (split_nonempty sep (a ++ b))|].
  destruct (split sep a) eqn:E2; [now destruct (split_nonempty sep a)|].
  simpl in *. now rewrite IH.
Qed.

Lemma slice_to_from (n : nat) (s : string) : s = slice_to n s ++ slice_from n s.
Proof.
  revert s. induction n as [|n IH]; intros [|c s]; simpl; try reflexivity.
  now rewrite <- IH.
Qed.

Lemma stem_prefix (s : string) : exists rest, s = stem_of_name s ++ rest.
Proof.
  unfold stem_of_name. destruct (rfind "." s) as [i|].
  - destruct (_ && _).
    + exists (slice_from i s). apply slice_to_from.
    + exists "". now rewrite append_empty_r.
  - exists "". now rewrite append_empty_r.
Qed.

(** The last component of a path is its name. *)
Lemma name_in_dir (dir fname : string) :
  has_char "/" fname = false -> fname <> "" -> fname <> "." ->
  PyPath.name (dir ++ "/" ++ fname) = fname.
Proof.
  intros Hs He Hd. unfold PyPath.name, PyPath.parts.
  change ("/" ++ fname) with (String "/" fname).
  rewrite split_sep, filter_app, (@split_absent "/" fname Hs). cbn [filter].
  destruct (String.eqb_spec fname ""); [contradiction|].
  destruct (String.eqb_spec fname "."); [contradiction|].
  cbn [negb andb]. apply last_last.
Qed.

(** [os.path.join] puts exactly one ['/'] before a relative name. *)
Lemma filename_no_sep (url : string) :
  has_char "/" (Download.filename_of_url url) = false.
Proof.
  unfold Download.filename_of_url. apply has_char_replace_other; [discriminate|].
  assert (G : forall l : list string,
             Forall (fun c => has_char "/" c = false) l ->
             has_char "/" (last l "") = false).
  { induction l as [|c [|c' l] IH]; intros F; [reflexivity | |].
    - exact (Forall_inv F).
    - apply IH. exact (Forall_inv_tail F). }
  apply G. induction url as [|c url IH]; simpl.
  - now constructor.
  - destruct (Ascii.eqb c "/") eqn:E; [now constructor|].
    destruct (split "/" url) as [|h t]; [constructor; [simpl; now rewrite E | constructor]|].
    constructor; [simpl; rewrite E; exact (Forall_inv IH) | exact (Forall_inv_tail IH)].
Qed.

Lemma filename_no_blank (url : string) :
  has_char " " (Download.filename_of_url url) = false.
Proof. unfold Download.filename_of_url. apply has_char_replace. discriminate. Qed.

Lemma filename_last (base name : string) :
  has_char "/" name = false ->
  Download.filename_of_url (base ++ "/" ++ name) = replace " " "_" name.
Proof.
  intros H. unfold Download.filename_of_url.
  change ("/" ++ name) with (String "/" name).
  now rewrite split_sep, (@split_absent "/" name H), last_last.
Qed.

End PathFacts.

Module MiniFacts.

Import Py PyAux PyFacts VoxCeleb1SID VoxCeleb1 MiniAux StringFacts PathFacts.
Local Open Scope string_scope.

Section Resolve.
Variable resolve : string -> string.

Lemma prepare_snoc (files : list string) (file : string) :
  prepare_datadict resolve (files ++ [file])
  = Dict.set (prepare_datadict resolve files) (PyPath.stem file) (entry_of resolve file).
Proof. unfold prepare_datadict. now rewrite fold_left_app. Qed.

Lemma prepare_items (files : list string) :
  prepare_datadict resolve files
  = Dict.of_items (map (fun file => (PyPath.stem file, entry_of resolve file)) files).
Proof.
  induction files as [|file files IH] using rev_ind; [reflexivity|].
  rewrite prepare_snoc, IH, map_app. cbn [map].
  now rewrite DictFacts2.of_items_snoc.
Qed.

Lemma prepare_get_later (pre post : list string) (k : string) :
  Forall (fun later => PyPath.stem later <> k) post ->
  Dict.get (prepare_datadict resolve (pre ++ post)) k
  = Dict.get (prepare_datadict resolve pre) k.
Proof.
  induction post as [|file post IH] using rev_ind; intros F.
  - now rewrite app_nil_r.
  - apply Forall_app in F as [F1 F2].
    rewrite app_assoc, prepare_snoc, DictFacts.get_set_other; [now apply IH|].
    exact (Forall_inv F2).
Qed.

Lemma prepare_get_last (pre post : list string) (file : string) :
  Forall (fun later => PyPath.stem later <> PyPath.stem file) post ->
  Dict.get (prepare_datadict resolve (pre ++ file :: post)) (PyPath.stem file)
  = Some (entry_of resolve file).
Proof.
  intros F. change (pre ++ file :: post)%list with (pre ++ [file] ++ post)%list.
  rewrite app_assoc, (prepare_get_later _ F), prepare_snoc.
  apply DictFacts.get_set_same.
Qed.

End Resolve.

End MiniFacts.

Module MiniProperties.

Import Py PyAux PyFacts VoxCeleb1SID VoxCeleb1 MiniAux StringFacts PathFacts MiniFacts.
Local Open Scope string_scope.

(** X20. [prepare_datadict] keeps one record per stem: its keys are
    the stems of the files, none of them twice, and of several files
    with the same stem (the same name in two directories, or two
    suffixes) only the last one is kept. *)
Theorem one_record_per_stem (resolve : string -> string)
    (pre post : list string) (file : string) :
  Forall (fun later => PyPath.stem later <> PyPath.stem file) post ->
  let data := prepare_datadict resolve (pre ++ file :: post) in
  NoDup (Dict.keys data)
  /\ (forall k, In k (Dict.keys data)
                <-> In k (map PyPath.stem (pre ++ file :: post)))
  /\ Dict.get data (PyPath.stem file)
     = Some {| wav_path := resolve file;
               label := hd EmptyString (split "-" (PyPath.name file)) |}.
Proof.
  intros F. cbv zeta. split; [|split].
  - rewrite prepare_items. apply DictFacts.of_items_nodup.
  - intros k. now rewrite prepare_items, DictFacts.of_items_keys, map_map.
  - exact (@prepare_get_last resolve pre post file F).
Qed.

Lemma one_record_per_stem_witness :
  Dict.keys (prepare_datadict same_path train_files)
  = ["id10001-abc-00001"; "id10050-xyz-00002"]
  /\ Dict.get (prepare_datadict same_path train_files) "id10001-abc-00001"
     = Some {| wav_path := "/data/mini/train/old/id10001-abc-00001.flac";
               label := "id10001" |}.
Proof.
  split; [reflexivity|].
  refine (proj2 (proj2 (@one_record_per_stem same_path
            ["/data/mini/train/id10001-abc-00001.wav"]
            ["/data/mini/train/id10050-xyz-00002.wav"]
            "/data/mini/train/old/id10001-abc-00001.flac" _))).
  constructor; [discriminate | constructor].
Defined.

(** X21. Every record that [prepare_datadict] returns comes from one
    of the files: its key is the stem of the file and its path the
    resolved file.  When the key holds a ['-'], the label is the part
    of the key before the first ['-']. *)
Theorem record_label_is_key_prefix (resolve : string -> string)
    (files : list string) (k : string) (e : entry) :
  Dict.get (prepare_datadict resolve files) k = Some e ->
  (exists file, In file files /\ k = PyPath.stem file
                /\ wav_path e = resolve file)
  /\ (has_char "-" k = true -> label e = hd EmptyString (split "-" k)).
Proof.
  rewrite prepare_items. intros H. apply DictFacts.of_items_get in H.
  apply in_map_iff in H as (file & E & Hin). injection E as <- <-.
  split; [now exists file|].
  intros Hk. cbn [label entry_of]. unfold PyPath.stem in *.
  destruct (stem_prefix (PyPath.name file)) as [rest Hr].
  rewrite Hr at 1. now apply hd_split_app.
Qed.

Lemma record_label_is_key_prefix_witness :
  Dict.get (prepare_datadict same_path train_files) "id10050-xyz-00002"
  = Some {| wav_path := "/data/mini/train/id10050-xyz-00002.wav";
            label := "id10050" |}
  /\ has_char "-" "id10050-xyz-00002" = true
  /\ hd EmptyString (split "-" "id10050-xyz-00002") = "id10050".
Proof.
  split; [reflexivity|]. split; [reflexivity|].
  symmetry.
  exact (proj2 (@record_label_is_key_prefix same_path train_files
                  "id10050-xyz-00002" _ eq_refl) eq_refl).
Defined.

(** X22. A file [<dir>/<speaker>-<rest>.<ext>] (no ['-'] in the
    speaker, no ['/'] in the name), when no later file has its stem,
    is recorded under the key [<speaker>-<rest>] with the label
    [<speaker>], whatever its directory and its suffix. *)
Theorem file_name_gives_key_and_label (resolve : string -> string)
    (pre post : list string) (dir spk rest ext : string) :
  has_char "/" spk = false -> has_char "-" spk = false ->
  has_char "/" rest = false ->
  ext <> "" -> has_char "/" ext = false -> has_char "." ext = false ->
  let file := dir ++ "/" ++ spk ++ "-" ++ rest ++ "." ++ ext in
  Forall (fun later => PyPath.stem later <> spk ++ "-" ++ rest) post ->
  Dict.get (prepare_datadict resolve (pre ++ file :: post)) (spk ++ "-" ++ rest)
  = Some {| wav_path := resolve file; label := spk |}.
Proof.
  intros Hs1 Hs2 Hr He Hes Hed file F.
  assert (Hn : PyPath.name file = spk ++ "-" ++ rest ++ "." ++ ext).
  { apply name_in_dir.
    - rewrite !has_char_app, Hs1, Hr, Hes. reflexivity.
    - destruct spk; discriminate.
    - destruct spk as [|c [|c' spk]]; discriminate. }
  assert (Hst : PyPath.stem file = spk ++ "-" ++ rest).
  { unfold PyPath.stem. rewrite Hn.
    replace (spk ++ "-" ++ rest ++ "." ++ ext)
      with ((spk ++ "-" ++ rest) ++ String "." ext)
      by (rewrite append_assoc; reflexivity).
    apply stem_with_suffix; [destruct spk; discriminate | exact He | exact Hed]. }
  rewrite <- Hst in F |- *.
  rewrite (@prepare_get_last resolve pre post file F). unfold entry_of. do 2 f_equal.
  rewrite Hn. change ("-" ++ rest ++ "." ++ ext) with (String "-" (rest ++ "." ++ ext)).
  now apply hd_split_first.
Qed.

Lemma file_name_gives_key_and_label_witness :
  Dict.get (prepare_datadict same_path
              ["/data/mini/valid/id10001-abc-00001.wav";
               "/data/mini/valid/id10050-xyz-00002.wav"])
    "id10001-abc-00001"
  = Some {| wav_path := "/data/mini/valid/id10001-abc-00001.wav";
            label := "id10001" |}.
Proof.
  refine (@file_name_gives_key_and_label same_path []
            ["/data/mini/valid/id10050-xyz-00002.wav"]
            "/data/mini/valid" "id10001" "abc-00001" "wav"
            eq_refl eq_refl eq_refl _ eq_refl eq_refl _).
  - discriminate.
  - constructor; [discriminate | constructor].
Defined.

(** X23. [download_from_url] saves a URL under its last component,
    with blanks turned into underscores: the name holds neither ['/']
    nor a blank.  A part of the dev archive is therefore saved at the
    very path whose existence [download_dev] tests before it fetches
    the part. *)
Theorem download_saves_where_it_looks (tgt_dir part : string) :
  has_char "/" part = false -> has_char " " part = false ->
  (forall url, has_char "/" (Download.filename_of_url url) = false
               /\ has_char " " (Download.filename_of_url url) = false)
  /\ Download.filename_of_url (Download.dev_part_url part)
     = "vox1_dev_wav_parta" ++ part
  /\ Download.filepath_of_url tgt_dir (Download.dev_part_url part)
     = Download.dev_part_path tgt_dir part.
Proof.
  intros Hs Hb.
  assert (E : Download.filename_of_url (Download.dev_part_url part)
              = "vox1_dev_wav_parta" ++ part).
  { change (Download.dev_part_url part)
      with ("https://thor.robots.ox.ac.uk/~vgg/data/voxceleb/vox1a"
            ++ "/" ++ ("vox1_dev_wav_parta" ++ part)).
    rewrite filename_last by (rewrite has_char_app; exact Hs).
    apply replace_absent. rewrite has_char_app. exact Hb. }
  split; [|split].
  - intros url. split; [apply filename_no_sep | apply filename_no_blank].
  - exact E.
  - unfold Download.filepath_of_url, Download.dev_part_path. now rewrite E.
Qed.

Lemma download_saves_where_it_looks_witness :
  Download.filepath_of_url "/data/voxceleb" (Download.dev_part_url "a")
  = "/data/voxceleb/vox1_dev_wav_partaa".
Proof.
  exact (proj2 (proj2 (@download_saves_where_it_looks "/data/voxceleb" "a"
                         eq_refl eq_refl))).
Defined.

End MiniProperties.
